(** * Replication analysis harness (analyze.py): model and properties

    The harness drives a leader/follower key-value store over HTTP: it sets
    the write quorum, issues a batch of writes through a thread pool, reduces
    the measured latencies to statistics and compares the followers' dumps
    with the leader's.

    Modelling choices.
    - Python dicts are insertion-ordered association lists without duplicate
      keys ([dict_set] replaces in place or appends), ints are [Z] or [nat]
      (lengths and counters).
    - Clock readings and latencies are rationals [Q]. The records of a sweep
      hold the exact statistics and the exact percentage ([calculate_stats],
      [percentage]); the IEEE 754 doubles that the code computes for them
      are given by [calculate_stats_double] and [compute_consistency_pct],
      over [round64], the rounding of a rational to the nearest double.
    - Everything outside the process (the store, the clocks, the thread
      scheduler) is an [environment]: a state type [world] and one transition
      per primitive the script calls.  Each HTTP request is one atomic
      transition of the world.
    - Console output, the files written by save_stores and the two plots are
      not modelled; save_stores is kept for its HTTP requests and for the
      stores it computes. *)

From Stdlib Require Import List String Ascii ZArith QArith Lia Bool.
From Stdlib Require Import DecimalString DecimalNat Permutation Sorted FinFun.
From Stdlib Require DecimalPos DecimalZ.
From Stdlib Require Import Lqa.
From Stdlib Require Import Qpower Qround.
Import ListNotations.
Close Scope Q_scope.
Open Scope string_scope.

(** ** Values and dicts *)

(** A value of a dumped store, as decoded from JSON: a string or an integer
    (the /dump-versions endpoint returns integers). *)
Inductive value : Type :=
| VStr (s : string)
| VInt (z : Z).

(** Python's [==] on two such values: a string never equals an integer. *)
Definition value_eqb (a b : value) : bool :=
  match a, b with
  | VStr s, VStr t => String.eqb s t
  | VInt x, VInt y => Z.eqb x y
  | _, _ => false
  end.

Section Dict.
Context {K V : Type}.
Variable eqb : K -> K -> bool.

(** d.get(k) / d[k]: the binding of [k], if any. *)
Fixpoint dict_get (k : K) (d : list (K * V)) : option V :=
  match d with
  | [] => None
  | (k', v) :: rest => if eqb k k' then Some v else dict_get k rest
  end.

(** d[k] = v: an existing key keeps its position, a new key goes last. *)
Fixpoint dict_set (k : K) (v : V) (d : list (K * V)) : list (K * V) :=
  match d with
  | [] => [(k, v)]
  | (k', v') :: rest =>
      if eqb k k' then (k', v) :: rest else (k', v') :: dict_set k v rest
  end.

(** The dict built from a sequence of bindings, later ones overriding. *)
Definition dict_of_items (items : list (K * V)) : list (K * V) :=
  fold_left (fun d kv => dict_set (fst kv) (snd kv) d) items [].

Definition dict_keys (d : list (K * V)) : list K := map fst d.

End Dict.

Definition dict (V : Type) : Type := list (string * V).

(** k in keys, for a list of strings *)
Definition list_mem (k : string) (keys : list string) : bool :=
  existsb (String.eqb k) keys.

Definition string_of_nat (n : nat) : string :=
  NilEmpty.string_of_uint (Nat.to_uint n).

Definition string_of_Z (z : Z) : string :=
  NilZero.string_of_int (Z.to_int z).

(** ** Doubles

    The floats of the program are IEEE 754 binary64 numbers. A finite
    double is given by the rational it denotes; [round64] rounds a rational
    to the nearest double, ties to the even significand, as the arithmetic
    of the processor and Python's int/int division do. The two zeros are
    not told apart. *)
Inductive double : Type :=
| Finite (q : Q)
| Infinity (negative : bool)
| NaN.

(** floor(log2 x) for a positive x *)
Definition floor_log2 (x : Q) : Z :=
  if Qle_bool 1 x then Z.log2 (Qfloor x)
  else (- Z.log2_up (Qceiling (/ x)))%Z.

(** The exponent of the spacing of the doubles around a positive x: 52
    binary digits below the leading one, and never below the spacing
    2^-1074 of the subnormal doubles. *)
Definition quantum_exp (x : Q) : Z := Z.max (floor_log2 x - 52) (-1074).

(** Rounding to the nearest integer, ties to even. *)
Definition round_half_even (y : Q) : Z :=
  let f := Qfloor y in
  match Qcompare (y - inject_Z f) (1 # 2) with
  | Lt => f
  | Gt => (f + 1)%Z
  | Eq => if Z.even f then f else (f + 1)%Z
  end.

(** A positive x rounded to a multiple of the spacing around it. *)
Definition round_pos (x : Q) : Q :=
  (inject_Z (round_half_even (x / 2 ^ quantum_exp x)) * 2 ^ quantum_exp x)%Q.

(** What rounds to 2^1024 or more overflows. *)
Definition overflow_threshold : Q := (2 ^ 1024)%Q.

Definition round64 (x : Q) : double :=
  match Qcompare x 0 with
  | Eq => Finite 0
  | Gt =>
      if Qle_bool overflow_threshold (round_pos x) then Infinity false
      else Finite (Qred (round_pos x))
  | Lt =>
      if Qle_bool overflow_threshold (round_pos (- x)) then Infinity true
      else Finite (Qred (- round_pos (- x)))
  end.

(** x + y on doubles *)
Definition double_add (a b : double) : double :=
  match a, b with
  | Finite x, Finite y => round64 (x + y)
  | NaN, _ => NaN
  | _, NaN => NaN
  | Infinity s, Finite _ => Infinity s
  | Finite _, Infinity s => Infinity s
  | Infinity s, Infinity s' => if Bool.eqb s s' then Infinity s else NaN
  end.


(** x / 2 on doubles *)
Definition double_halve (a : double) : double :=
  match a with
  | Finite x => round64 (x / 2)
  | Infinity s => Infinity s
  | NaN => NaN
  end.

(** A multiple of 2^q. *)
Definition on_grid (q : Z) (b : Q) : Prop :=
  exists k : Z, (b == inject_Z k * 2 ^ q)%Q.

(** A positive rational that is a multiple of the spacing around it. *)
Definition grid_point (b : Q) : Prop :=
  (0 < b)%Q /\ on_grid (quantum_exp b) b.

(** The finite doubles: zero, and the grid points below the overflow
    threshold with their opposites. *)
Definition is_double (b : Q) : Prop :=
  (b == 0)%Q
  \/ (grid_point b /\ (b < overflow_threshold)%Q)
  \/ (grid_point (- b) /\ (- b < overflow_threshold)%Q).

(** A double that is at most, or at least, a rational. *)
Definition below (d : double) (b : Q) : Prop :=
  match d with
  | Finite r => (r <= b)%Q
  | Infinity negative => negative = true
  | NaN => False
  end.

Definition above (b : Q) (d : double) : Prop :=
  match d with
  | Finite r => (b <= r)%Q
  | Infinity negative => negative = false
  | NaN => False
  end.

(** A Python number of the program: an int or a float. *)
Inductive number : Type :=
| PyInt (n : Z)
| PyFloat (x : double).

(** ** The environment *)

(** What a request hands back: a response with its status code and body, or
    an exception of the requests library (connection error, timeout). The
    body of a response either decodes to a JSON object, given by its members
    in textual order, or makes response.json() raise. *)
Inductive body : Type :=
| JsonObject (members : list (string * value))
| NotJson.

Inductive http_result : Type :=
| Response (status_code : Z) (b : body)
| RequestException.

(** The JSON payloads the script posts. *)
Inductive payload : Type :=
| ConfigPayload (writeQuorum : Z)
| WritePayload (key val : string).

(** [perf_counter] is the monotonic clock read by write_key, in seconds;
    [time_time] yields the rendering of time.time() and lets time pass;
    [time_sleep] is the world after sleeping; [pick w n] is the scheduler's
    choice among [n] requests in flight. *)
Record environment : Type := {
  world : Type;
  requests_get : string -> world -> http_result * world;
  requests_post : string -> payload -> world -> http_result * world;
  perf_counter : world -> Q;
  time_time : world -> string * world;
  time_sleep : Q -> world -> world;
  pick : world -> nat -> nat;
  perf_counter_monotonic :
    forall url p w, (perf_counter w <= perf_counter (snd (requests_post url p w)))%Q
}.

(** ** Configuration (the module-level constants) *)

Record config : Type := {
  LEADER_URL : string;
  FOLLOWER_URLS : list string;
  NUM_KEYS : Z;
  NUM_WRITES_PER_KEY : Z;
  CONCURRENT_WRITES : Z;
  QUORUM_VALUES : list Z
}.

Definition default_config : config := {|
  LEADER_URL := "http://localhost:8080";
  FOLLOWER_URLS := [ "http://localhost:8081"; "http://localhost:8082";
                     "http://localhost:8083"; "http://localhost:8084";
                     "http://localhost:8085" ];
  NUM_KEYS := 10;
  NUM_WRITES_PER_KEY := 10;
  CONCURRENT_WRITES := 10;
  QUORUM_VALUES := [1; 2; 3; 4; 5]%Z
|}.

(** ** Result records *)

Record LatencyStats : Type := {
  mean : Q;
  median : Q;
  min_val : Q;
  max_val : Q
}.

(** The LatencyStats that calculate_stats returns, with the numbers as the
    code has them: the ints 0 for an empty list, floats otherwise. *)
Record LatencyStatsDouble : Type := {
  mean_double : number;
  median_double : number;
  min_double : number;
  max_double : number
}.

(** One element of results["followers"]. *)
Record follower_entry : Type := {
  follower : string;
  keys : nat;
  matches_leader : bool;
  matching_count : nat;
  mismatched_values : nat;
  missing_keys : nat;
  mismatched_examples : list string
}.

(** The dict returned by check_consistency; the key "consistency_pct" is
    absent until run_analysis stores it. *)
Record consistency_report : Type := {
  leader_keys : nat;
  followers : list follower_entry;
  consistency_pct : option Q
}.

(** A call either returns or raises. *)
Inductive exception : Type :=
| ValueError (msg : string)
| ZeroDivisionError (msg : string)
| OverflowError (msg : string)
| StatisticsError (msg : string).

Inductive outcome (A : Type) : Type :=
| Returned (a : A)
| Raised (e : exception).
Arguments Returned {A} a.
Arguments Raised {A} e.

(** a / b on two ints: the quotient rounded to the nearest double. *)
Definition int_true_div (a b : Z) : outcome double :=
  if Z.eqb b 0 then Raised (ZeroDivisionError "division by zero")
  else
    match round64 (inject_Z a / inject_Z b) with
    | Infinity _ =>
        Raised (OverflowError "integer division result too large for a float")
    | quotient => Returned quotient
    end.

(** float(q) for a Fraction q: its numerator over its denominator. *)
Definition float_of_fraction (q : Q) : outcome double :=
  int_true_div (Qnum q) (QDen q).

(** ** The client operations *)

Section Harness.
Variable env : environment.
Variable cfg : config.

(** set_quorum: true only for a 200 response. *)
Definition set_quorum (quorum : Z) (w : world env) : bool * world env :=
  match requests_post env (LEADER_URL cfg ++ "/config") (ConfigPayload quorum) w with
  | (Response status_code _, w') => (Z.eqb status_code 200, w')
  | (RequestException, w') => (false, w')
  end.

(** write_key: the elapsed time of a write answered with 201, -1 otherwise. *)
Definition write_key (key val : string) (w : world env) : Q * world env :=
  let start := perf_counter env w in
  match requests_post env (LEADER_URL cfg ++ "/write") (WritePayload key val) w with
  | (Response status_code _, w') =>
      let elapsed := (perf_counter env w' - start)%Q in
      if Z.eqb status_code 201 then (elapsed, w') else ((-1)%Q, w')
  | (RequestException, w') => ((-1)%Q, w')
  end.

(** The shared body of get_all_data and get_all_versions. *)
Definition get_json (full_url : string) (w : world env) : dict value * world env :=
  match requests_get env full_url w with
  | (Response status_code b, w') =>
      if Z.eqb status_code 200 then
        match b with
        | JsonObject members => (dict_of_items String.eqb members, w')
        | NotJson => ([], w')
        end
      else ([], w')
  | (RequestException, w') => ([], w')
  end.

Definition get_all_data (url : string) (w : world env) : dict value * world env :=
  get_json (url ++ "/dump") w.

Definition get_all_versions (url : string) (w : world env) : dict value * world env :=
  get_json (url ++ "/dump-versions") w.

(** ** check_consistency *)

(** The inner loop of check_consistency over leader_data: the running
    matching_count, mismatched_values and missing_keys. A key comes with the
    value leader_data binds it to. *)
Definition classify_step (follower_data : dict value)
    (acc : nat * list string * list string) (kv : string * value)
    : nat * list string * list string :=
  let '(matching, mismatched, missing) := acc in
  let '(k, v) := kv in
  match dict_get String.eqb k follower_data with
  | None => (matching, mismatched, (missing ++ [k])%list)
  | Some fv =>
      if value_eqb v fv then (S matching, mismatched, missing)
      else (matching, (mismatched ++ [k])%list, missing)
  end.

Definition classify (leader_data follower_data : dict value)
    : nat * list string * list string :=
  fold_left (classify_step follower_data) leader_data (0, [], []).

(** The dict appended to results["followers"] for follower number [i]. *)
Definition make_entry (i : nat) (leader_data follower_data : dict value)
    : follower_entry :=
  let '(matching, mismatched, missing) := classify leader_data follower_data in
  let is_consistent :=
    Nat.eqb (List.length mismatched) 0 && Nat.eqb (List.length missing) 0 in
  {| follower := "f" ++ string_of_nat i;
     keys := List.length follower_data;
     matches_leader := is_consistent;
     matching_count := matching;
     mismatched_values := List.length mismatched;
     missing_keys := List.length missing;
     mismatched_examples := firstn 3 mismatched |}.

(** for i, url in enumerate(urls, i): one dump and one entry per url. *)
Fixpoint check_followers (leader_data : dict value) (i : nat)
    (urls : list string) (w : world env) : list follower_entry * world env :=
  match urls with
  | [] => ([], w)
  | url :: rest =>
      let '(follower_data, w1) := get_all_data url w in
      let '(entries, w2) := check_followers leader_data (S i) rest w1 in
      (make_entry i leader_data follower_data :: entries, w2)
  end.

(** A list argument is truthy when it is given and not empty. *)
Definition truthy {A : Type} (o : option (list A)) : bool :=
  match o with
  | Some (_ :: _) => true
  | _ => false
  end.

(** The leader's data after the optional restriction to [keys]. *)
Definition restrict (keys : option (list string)) (leader_data : dict value)
    : dict value :=
  match keys with
  | Some ks =>
      if truthy keys then filter (fun kv => list_mem (fst kv) ks) leader_data
      else leader_data
  | None => leader_data
  end.

Definition check_consistency (keys : option (list string)) (w : world env)
    : consistency_report * world env :=
  let '(leader_dump, w1) := get_all_data (LEADER_URL cfg) w in
  let leader_data := restrict keys leader_dump in
  let '(entries, w2) := check_followers leader_data 1 (FOLLOWER_URLS cfg) w1 in
  ({| leader_keys := List.length leader_data;
      followers := entries;
      consistency_pct := None |}, w2).

(** ** run_concurrent_writes *)

(** range(n) *)
Definition range (n : Z) : list Z := map Z.of_nat (seq 0 (Z.to_nat n)).

(** The inner loop of the task construction: one (key, value) per key, the
    value carrying the iteration number and the current time.time(). *)
Fixpoint tasks_for_keys (i : Z) (keys : list string) (w : world env)
    : list (string * string) * world env :=
  match keys with
  | [] => ([], w)
  | key :: rest =>
      let '(now, w1) := time_time env w in
      let val := "value_" ++ key ++ "_" ++ string_of_Z i ++ "_" ++ now in
      let '(tasks, w2) := tasks_for_keys i rest w1 in
      ((key, val) :: tasks, w2)
  end.

(** The outer loop: for i in range(num_writes_per_key). *)
Fixpoint build_tasks (iterations : list Z) (keys : list string) (w : world env)
    : list (string * string) * world env :=
  match iterations with
  | [] => ([], w)
  | i :: rest =>
      let '(tasks, w1) := tasks_for_keys i keys w in
      let '(more, w2) := build_tasks rest keys w1 in
      ((tasks ++ more)%list, w2)
  end.

Definition remove_nth {A : Type} (i : nat) (l : list A) : list A :=
  (firstn i l ++ skipn (S i) l)%list.

(** A ThreadPoolExecutor with [max_workers] threads running [f] on the
    submitted tasks, its results listed in completion order as as_completed
    yields them. The workers hold the first [max_workers] tasks still
    pending; the scheduler picks which of them reaches the world next.
    [n] counts the pending tasks. *)
Fixpoint pool_run {A : Type} (f : string * string -> world env -> A * world env)
    (max_workers n : nat) (pending : list (string * string)) (w : world env)
    : list A * world env :=
  match n with
  | O => ([], w)
  | S n' =>
      let in_flight := Nat.min max_workers (List.length pending) in
      let i := Nat.modulo (pick env w in_flight) in_flight in
      match nth_error pending i with
      | None => ([], w)
      | Some task =>
          let '(a, w1) := f task w in
          let '(rest, w2) := pool_run f max_workers n' (remove_nth i pending) w1 in
          (a :: rest, w2)
      end
  end.

(** The tasks are built first; ThreadPoolExecutor then rejects a
    max_workers that is not positive. *)
Definition run_concurrent_writes (keys : list string) (num_writes_per_key : Z)
    (concurrency : Z) (w : world env) : outcome (list Q) * world env :=
  let '(tasks, w1) := build_tasks (range num_writes_per_key) keys w in
  if Z.leb concurrency 0 then
    (Raised (ValueError "max_workers must be greater than 0"), w1)
  else
    let '(results, w2) :=
      pool_run (fun task => write_key (fst task) (snd task))
               (Z.to_nat concurrency) (List.length tasks) tasks w1 in
    (Returned (filter (fun latency => Qle_bool 0 latency) results), w2).

(** ** calculate_stats *)

Definition Qsum (l : list Q) : Q := fold_left Qplus l 0%Q.

Definition Qlen (l : list Q) : Q := inject_Z (Z.of_nat (List.length l)).

(** The exact mean of the data: what statistics.mean rounds to a float. *)
Definition statistics_mean (data : list Q) : Q := (Qsum data / Qlen data)%Q.

(** sorted(data), as a stable insertion sort *)
Fixpoint insert_sorted (x : Q) (l : list Q) : list Q :=
  match l with
  | [] => [x]
  | y :: rest => if Qle_bool x y then x :: l else y :: insert_sorted x rest
  end.

Definition sorted (data : list Q) : list Q :=
  fold_right insert_sorted [] data.

(** The exact median of a non-empty list: the middle element of the sorted
    data, or the exact average of the two middle ones. *)
Definition statistics_median (data : list Q) : Q :=
  let data := sorted data in
  let n := List.length data in
  if Nat.eqb (Nat.modulo n 2) 1 then nth (Nat.div n 2) data 0%Q
  else
    let i := Nat.div n 2 in
    ((nth (i - 1) data 0%Q + nth i data 0%Q) / 2)%Q.

(** min(x, rest...) and max(x, rest...): the first extreme element wins. *)
Definition py_min (x : Q) (rest : list Q) : Q :=
  fold_left (fun m y => if Qle_bool m y then m else y) rest x.

Definition py_max (x : Q) (rest : list Q) : Q :=
  fold_left (fun m y => if Qle_bool y m then m else y) rest x.

(** The exact statistics of the samples. *)
Definition calculate_stats (latencies : list Q) : LatencyStats :=
  match latencies with
  | [] => {| mean := 0; median := 0; min_val := 0; max_val := 0 |}
  | x :: rest =>
      {| mean := statistics_mean latencies;
         median := statistics_median latencies;
         min_val := py_min x rest;
         max_val := py_max x rest |}
  end.

(** *** The statistics in doubles

    calculate_stats above gives the exact statistics of the samples; what
    follows is what the code returns for samples that are finite doubles,
    each given by its value. statistics.mean adds the samples exactly and
    converts the quotient to a float; statistics.median averages the two
    middle samples in doubles. *)
Definition statistics_mean_double (data : list Q) : outcome double :=
  match data with
  | [] => Raised (StatisticsError "mean requires at least one data point")
  | _ :: _ => float_of_fraction (Qsum data / Qlen data)
  end.

Definition statistics_median_double (data : list Q) : outcome double :=
  let data := sorted data in
  let n := List.length data in
  if Nat.eqb n 0 then Raised (StatisticsError "no median for empty data")
  else if Nat.eqb (Nat.modulo n 2) 1 then
    Returned (Finite (nth (Nat.div n 2) data 0%Q))
  else
    let i := Nat.div n 2 in
    Returned (double_halve (double_add (Finite (nth (i - 1) data 0%Q))
                                       (Finite (nth i data 0%Q)))).

Definition calculate_stats_double (latencies : list Q)
    : outcome LatencyStatsDouble :=
  match latencies with
  | [] =>
      Returned {| mean_double := PyInt 0; median_double := PyInt 0;
                  min_double := PyInt 0; max_double := PyInt 0 |}
  | x :: rest =>
      match statistics_mean_double latencies with
      | Raised e => Raised e
      | Returned mean_value =>
          match statistics_median_double latencies with
          | Raised e => Raised e
          | Returned median_value =>
              Returned {| mean_double := PyFloat mean_value;
                          median_double := PyFloat median_value;
                          min_double := PyFloat (Finite (py_min x rest));
                          max_double := PyFloat (Finite (py_max x rest)) |}
          end
      end
  end.

(** ** save_stores *)

Fixpoint insert_key (k : string) (l : list string) : list string :=
  match l with
  | [] => [k]
  | k' :: rest => if String.leb k k' then k :: l else k' :: insert_key k rest
  end.

(** sorted(keys) *)
Definition sorted_keys (keys : list string) : list string :=
  fold_right insert_key [] keys.

(** {k: versions[k] for k in sorted(keys) if k in versions} *)
Definition filter_versions (keys : list string) (versions : dict value)
    : dict value :=
  fold_left
    (fun d k =>
       match dict_get String.eqb k versions with
       | Some v => dict_set String.eqb k v d
       | None => d
       end)
    (sorted_keys keys) [].

(** os.path.join of two parts on a POSIX system: a second part that starts
    with the separator replaces the first; otherwise the parts are joined
    by one separator, which is left out when the first part is empty or
    ends with one. *)
Definition starts_with_sep (s : string) : bool :=
  match s with
  | String c _ => Ascii.eqb c "/"
  | EmptyString => false
  end.

Fixpoint ends_with_sep (s : string) : bool :=
  match s with
  | EmptyString => false
  | String c EmptyString => Ascii.eqb c "/"
  | String _ rest => ends_with_sep rest
  end.

Definition path_join (a b : string) : string :=
  if starts_with_sep b then b
  else if String.eqb a "" || ends_with_sep a then a ++ b
  else a ++ "/" ++ b.

(** The followers' part of save_stores: one version dump and one store per
    follower, named after its number. *)
Fixpoint save_follower_stores (quorum_dir : string) (keys : list string)
    (i : nat) (urls : list string) (w : world env)
    : list (string * dict value) * world env :=
  match urls with
  | [] => ([], w)
  | url :: rest =>
      let '(follower_versions, w1) := get_all_versions url w in
      let file := path_join quorum_dir ("f" ++ string_of_nat i ++ "_store.json") in
      let '(files, w2) := save_follower_stores quorum_dir keys (S i) rest w1 in
      ((file, filter_versions keys follower_versions) :: files, w2)
  end.

(** save_stores, returning the stores it writes with their paths. *)
Definition save_stores (quorum : Z) (keys : list string) (results_dir : string)
    (w : world env) : list (string * dict value) * world env :=
  let quorum_dir := path_join results_dir ("q" ++ string_of_Z quorum) in
  let '(leader_versions, w1) := get_all_versions (LEADER_URL cfg) w in
  let leader_filtered := filter_versions keys leader_versions in
  let '(files, w2) :=
    save_follower_stores quorum_dir keys 1 (FOLLOWER_URLS cfg) w1 in
  ((path_join quorum_dir "leader_store.json", leader_filtered) :: files, w2).

(** ** run_analysis *)

(** The locals of run_analysis that outlive one iteration of its loop, and
    the stores saved so far. *)
Record sweep_state : Type := {
  all_stats : list (Z * LatencyStats);
  all_consistency : list (Z * consistency_report);
  saved : list (string * dict value)
}.

Definition initial_state : sweep_state :=
  {| all_stats := []; all_consistency := []; saved := [] |}.

Definition total_matching (r : consistency_report) : nat :=
  fold_left Nat.add (map matching_count (followers r)) 0.

Definition total_keys_checked (r : consistency_report) : nat :=
  leader_keys r * List.length (followers r).

(** The exact value of the consistency percentage of a report, before the
    rounding of the division and of the multiplication. *)
Definition percentage (r : consistency_report) : Q :=
  if Nat.ltb 0 (total_keys_checked r) then
    (inject_Z (Z.of_nat (total_matching r))
       / inject_Z (Z.of_nat (total_keys_checked r)) * 100)%Q
  else 0%Q.


(** consistency["consistency_pct"] = ... *)
Definition with_pct (r : consistency_report) (pct : Q) : consistency_report :=
  {| leader_keys := leader_keys r;
     followers := followers r;
     consistency_pct := Some pct |}.

(** The keys key_0 ... key_{NUM_KEYS-1} of one iteration. *)
Definition sweep_keys : list string :=
  map (fun i => "key_" ++ string_of_Z i) (range (NUM_KEYS cfg)).

(** One iteration of the loop over QUORUM_VALUES. The report stored under
    all_consistency[quorum] is the object that later receives
    "consistency_pct", so the stored report carries the percentage. The
    records hold the exact statistics and the exact percentage;
    calculate_stats_double and compute_consistency_pct give the doubles that
    the code computes from the same samples and the same report. *)
Definition quorum_iteration (quorum : Z) (st : sweep_state) (w : world env)
    : outcome sweep_state * world env :=
  let '(configured, w1) := set_quorum quorum w in
  if negb configured then (Returned st, w1)
  else
    let w2 := time_sleep env (1 # 2) w1 in
    let keys := sweep_keys in
    match run_concurrent_writes keys (NUM_WRITES_PER_KEY cfg)
            (CONCURRENT_WRITES cfg) w2 with
    | (Raised e, w3) => (Raised e, w3)
    | (Returned latencies, w3) =>
        let stats' :=
          match latencies with
          | [] => all_stats st
          | _ :: _ =>
              dict_set Z.eqb quorum (calculate_stats latencies) (all_stats st)
          end in
        let w4 := time_sleep env 1 w3 in
        let '(consistency, w5) := check_consistency (Some keys) w4 in
        let '(files, w6) := save_stores quorum keys "results" w5 in
        let consistency_pct := percentage consistency in
        (Returned
           {| all_stats := stats';
              all_consistency :=
                dict_set Z.eqb quorum (with_pct consistency consistency_pct)
                         (all_consistency st);
              saved := (saved st ++ files)%list |}, w6)
    end.

(** for quorum in QUORUM_VALUES: ... *)
Fixpoint sweep (quorums : list Z) (st : sweep_state) (w : world env)
    : outcome sweep_state * world env :=
  match quorums with
  | [] => (Returned st, w)
  | quorum :: rest =>
      match quorum_iteration quorum st w with
      | (Returned st', w') => sweep rest st' w'
      | (Raised e, w') => (Raised e, w')
      end
  end.

(** run_analysis returns all_stats. *)
Definition run_analysis (w : world env)
    : outcome (list (Z * LatencyStats)) * world env :=
  match sweep (QUORUM_VALUES cfg) initial_state w with
  | (Returned st, w') => (Returned (all_stats st), w')
  | (Raised e, w') => (Raised e, w')
  end.

(** The quorum values of [quorums] whose set_quorum call returns True when
    the loop reaches them, in call order. *)
Fixpoint configured_quorums (quorums : list Z) (st : sweep_state)
    (w : world env) : list Z :=
  match quorums with
  | [] => []
  | quorum :: rest =>
      let here := if fst (set_quorum quorum w) then [quorum] else [] in
      match quorum_iteration quorum st w with
      | (Returned st', w') => (here ++ configured_quorums rest st' w')%list
      | (Raised _, _) => here
      end
  end.

(** The keys of a dict with keys [ks] after d[q] = ... for each q of [l]
    in turn: a key that is new goes last. *)
Definition keys_after (ks l : list Z) : list Z :=
  fold_left
    (fun ks q => if existsb (Z.eqb q) ks then ks else (ks ++ [q])%list) l ks.

End Harness.

(** ** The summary and the data of the consistency plot *)

(** all(f["matches_leader"] for f in consistency["followers"]) *)
Definition all_match (r : consistency_report) : bool :=
  forallb matches_leader (followers r).









(** ** Vocabulary of the properties *)

(** The order of sorted(keys), and its strict part. *)
Definition key_le (a b : string) : Prop := String.leb a b = true.
Definition key_lt (a b : string) : Prop := String.leb a b = true /\ a <> b.





(** The three buckets of a leader binding against a follower's data. *)
Definition in_missing (follower_data : dict value) (kv : string * value) : bool :=
  match dict_get String.eqb (fst kv) follower_data with
  | None => true
  | Some _ => false
  end.

Definition in_matching (follower_data : dict value) (kv : string * value) : bool :=
  match dict_get String.eqb (fst kv) follower_data with
  | Some fv => value_eqb (snd kv) fv
  | None => false
  end.

Definition in_mismatched (follower_data : dict value) (kv : string * value) : bool :=
  match dict_get String.eqb (fst kv) follower_data with
  | Some fv => negb (value_eqb (snd kv) fv)
  | None => false
  end.

(** Exactly one of three booleans holds. *)
Definition exactly_one (a b c : bool) : bool :=
  (a && negb b && negb c) || (negb a && b && negb c) || (negb a && negb b && c).

(** A dump that failed: an exception (a timeout is one), a status other than
    200, or a body that is not JSON. *)
Definition dump_failed (r : http_result) : bool :=
  match r with
  | Response status_code (JsonObject _) => negb (Z.eqb status_code 200)
  | Response _ NotJson => true
  | RequestException => true
  end.

(** The entry of a follower for which every leader key is missing. *)
Definition all_missing_entry (i leader_keys : nat) : follower_entry :=
  {| follower := "f" ++ string_of_nat i;
     keys := 0;
     matches_leader := Nat.eqb leader_keys 0;
     matching_count := 0;
     mismatched_values := 0;
     missing_keys := leader_keys;
     mismatched_examples := [] |}.

(** A write answered with the created status. *)
Definition created (r : http_result) : bool :=
  match r with
  | Response status_code _ => Z.eqb status_code 201
  | RequestException => false
  end.

(** The (iteration, key) pairs in iteration-major order. *)
Definition iteration_major (num_writes_per_key : Z) (keys : list string)
    : list (Z * string) :=
  flat_map (fun i => map (fun key => (i, key)) keys) (range num_writes_per_key).

(** The task built at iteration [i] for [key] is (key, "value_key_i_now"). *)
Definition task_of (ik : Z * string) (task : string * string) : Prop :=
  fst task = snd ik /\
  exists now : string,
    snd task = "value_" ++ snd ik ++ "_" ++ string_of_Z (fst ik) ++ "_" ++ now.

Section Traces.
Variable env : environment.
Variable cfg : config.

(** The leader's data as check_consistency classifies it, and the world in
    which the dump of follower number [j] (from 0) is requested. *)
Definition checked_leader_data (keys : option (list string)) (w : world env)
    : dict value :=
  restrict keys (fst (get_all_data env (LEADER_URL cfg) w)).

Definition dump_world (keys : option (list string)) (j : nat) (w : world env)
    : world env :=
  snd (check_followers env (checked_leader_data keys w) 1
         (firstn j (FOLLOWER_URLS cfg))
         (snd (get_all_data env (LEADER_URL cfg) w))).

(** What one write does, seen from outside write_key: the task, the answer
    to its request and the time the request took. *)
Definition post_write (task : string * string) (w : world env)
    : (string * string * http_result * Q) * world env :=
  let r := requests_post env (LEADER_URL cfg ++ "/write")
             (WritePayload (fst task) (snd task)) w in
  ((task, fst r, (perf_counter env (snd r) - perf_counter env w)%Q), snd r).

(** What write_key returns for such a write. *)
Definition sample_of (x : string * string * http_result * Q) : Q :=
  if created (snd (fst x)) then snd x else (-1)%Q.

(** The tasks of a batch and the writes of its run, in completion order. *)
Definition batch_tasks (keys : list string) (num_writes_per_key : Z)
    (w : world env) : list (string * string) :=
  fst (build_tasks env (range num_writes_per_key) keys w).

Definition write_trace (keys : list string) (num_writes_per_key concurrency : Z)
    (w : world env) : list (string * string * http_result * Q) :=
  let '(tasks, w1) := build_tasks env (range num_writes_per_key) keys w in
  fst (pool_run env post_write (Z.to_nat concurrency) (List.length tasks) tasks w1).

(** A report carries the percentage the specification asks for: the
    matches across followers over leader keys times followers, times 100,
    between 0 and 100, and 0 when there is nothing to check. *)
Definition carries_percentage (r : consistency_report) : Prop :=
  exists pct : Q,
    consistency_pct r = Some pct
    /\ pct =
       (if Nat.eqb (leader_keys r * List.length (followers r)) 0 then 0
        else inject_Z (Z.of_nat (total_matching r))
             / inject_Z (Z.of_nat (leader_keys r * List.length (followers r)))
             * 100)%Q
    /\ (0 <= pct)%Q /\ (pct <= 100)%Q
    /\ (leader_keys r * List.length (followers r) = 0 -> pct = 0%Q).

End Traces.






(** ** Recording the requests

    An environment that behaves like [env] and also keeps the list of the
    requests made so far. *)

Inductive request : Type :=
| Get (url : string)
| Post (url : string) (p : payload).

Definition traced_get (env : environment) (url : string)
    (w : world env * list request) : http_result * (world env * list request) :=
  (fst (requests_get env url (fst w)),
   (snd (requests_get env url (fst w)), (snd w ++ [Get url])%list)).

Definition traced_post (env : environment) (url : string) (p : payload)
    (w : world env * list request) : http_result * (world env * list request) :=
  (fst (requests_post env url p (fst w)),
   (snd (requests_post env url p (fst w)), (snd w ++ [Post url p])%list)).

Lemma traced_perf_counter_monotonic (env : environment) (url : string)
    (p : payload) (w : world env * list request) :
  (perf_counter env (fst w)
   <= perf_counter env (fst (snd (traced_post env url p w))))%Q.
Proof. apply perf_counter_monotonic. Qed.

Definition traced (env : environment) : environment := {|
  world := world env * list request;
  requests_get := traced_get env;
  requests_post := traced_post env;
  perf_counter := fun w => perf_counter env (fst w);
  time_time := fun w => (fst (time_time env (fst w)),
                         (snd (time_time env (fst w)), snd w));
  time_sleep := fun seconds w => (time_sleep env seconds (fst w), snd w);
  pick := fun w n => pick env (fst w) n;
  perf_counter_monotonic := traced_perf_counter_monotonic env
|}.

(** The request of a task's write. *)
Definition write_request (cfg : config) (task : string * string) : request :=
  Post (LEADER_URL cfg ++ "/write") (WritePayload (fst task) (snd task)).

(** ** A simulated store

    A small store to run the harness against: every node holds a dict, a
    write reaches the leader and the followers that are not lagging, writes
    to the keys of [failing_keys] are refused, the quorum values of
    [rejected_quorums] are refused, requests to a node of [offline] raise,
    and every request takes one tick of the clocks. *)

Record sim_world : Type := {
  node_leader : string;
  stores : list (string * dict value);
  lagging : list string;
  offline : list string;
  failing_keys : list string;
  rejected_quorums : list Z;
  write_quorum : Z;
  ticks : Z
}.

Definition sim_tick (w : sim_world) : sim_world :=
  {| node_leader := node_leader w; stores := stores w; lagging := lagging w;
     offline := offline w; failing_keys := failing_keys w;
     rejected_quorums := rejected_quorums w; write_quorum := write_quorum w;
     ticks := Z.succ (ticks w) |}.

Definition sim_set_quorum (q : Z) (w : sim_world) : sim_world :=
  {| node_leader := node_leader w; stores := stores w; lagging := lagging w;
     offline := offline w; failing_keys := failing_keys w;
     rejected_quorums := rejected_quorums w; write_quorum := q;
     ticks := ticks w |}.

Definition sim_set_stores (s : list (string * dict value)) (w : sim_world)
    : sim_world :=
  {| node_leader := node_leader w; stores := s; lagging := lagging w;
     offline := offline w; failing_keys := failing_keys w;
     rejected_quorums := rejected_quorums w; write_quorum := write_quorum w;
     ticks := ticks w |}.

(** The node whose base URL followed by [path] is [url]. *)
Definition sim_node (path url : string) (w : sim_world)
    : option (string * dict value) :=
  find (fun node => String.eqb url (fst node ++ path)) (stores w).

Definition sim_get (url : string) (w : sim_world) : http_result * sim_world :=
  let w' := sim_tick w in
  match sim_node "/dump" url w, sim_node "/dump-versions" url w with
  | Some (node, data), _ =>
      if list_mem node (offline w) then (RequestException, w')
      else (Response 200 (JsonObject data), w')
  | None, Some (node, data) =>
      if list_mem node (offline w) then (RequestException, w')
      else (Response 200 (JsonObject (map (fun kv => (fst kv, VInt 1)) data)), w')
  | None, None => (Response 404 NotJson, w')
  end.

Definition sim_replicate (key val : string) (w : sim_world)
    : list (string * dict value) :=
  map (fun node =>
         if list_mem (fst node) (lagging w) then node
         else (fst node, dict_set String.eqb key (VStr val) (snd node)))
      (stores w).

Definition sim_post (url : string) (p : payload) (w : sim_world)
    : http_result * sim_world :=
  let w' := sim_tick w in
  if list_mem (node_leader w) (offline w) then (RequestException, w')
  else
    match p with
    | ConfigPayload q =>
        if negb (String.eqb url (node_leader w ++ "/config")) then
          (Response 404 NotJson, w')
        else if existsb (Z.eqb q) (rejected_quorums w) then
          (Response 400 NotJson, w')
        else (Response 200 NotJson, sim_set_quorum q w')
    | WritePayload key val =>
        if negb (String.eqb url (node_leader w ++ "/write")) then
          (Response 404 NotJson, w')
        else if list_mem key (failing_keys w) then
          (Response 500 NotJson, w')
        else (Response 201 NotJson, sim_set_stores (sim_replicate key val w) w')
    end.

Definition sim_perf_counter (w : sim_world) : Q := inject_Z (ticks w) / 1000.

Definition sim_time (w : sim_world) : string * sim_world :=
  (string_of_Z (ticks w), sim_tick w).

Definition sim_pick (w : sim_world) (n : nat) : nat := Z.to_nat (ticks w).

Lemma sim_post_ticks (url : string) (p : payload) (w : sim_world) :
  ticks (snd (sim_post url p w)) = Z.succ (ticks w).
Proof.
  unfold sim_post.
  destruct (list_mem (node_leader w) (offline w)); [reflexivity|].
  destruct p as [q | key val].
  - destruct (negb _); [reflexivity|].
    destruct (existsb _ _); reflexivity.
  - destruct (negb _); [reflexivity|].
    destruct (list_mem key _); reflexivity.
Qed.

Lemma sim_perf_counter_monotonic (url : string) (p : payload) (w : sim_world) :
  (sim_perf_counter w <= sim_perf_counter (snd (sim_post url p w)))%Q.
Proof.
  unfold sim_perf_counter. rewrite sim_post_ticks.
  unfold Qle, Qdiv, Qmult, Qinv, inject_Z. simpl. lia.
Qed.

Definition sim_env : environment := {|
  world := sim_world;
  requests_get := sim_get;
  requests_post := sim_post;
  perf_counter := sim_perf_counter;
  time_time := sim_time;
  time_sleep := fun _ w => sim_tick w;
  pick := sim_pick;
  perf_counter_monotonic := sim_perf_counter_monotonic
|}.

(** The small configuration without any worker thread. *)
Definition zero_workers_config : config := {|
  LEADER_URL := "http://leader";
  FOLLOWER_URLS := ["http://f1"; "http://f2"];
  NUM_KEYS := 2;
  NUM_WRITES_PER_KEY := 2;
  CONCURRENT_WRITES := 0;
  QUORUM_VALUES := [1; 2; 3]%Z
|}.

(** A leader and two followers. *)
Definition small_config : config := {|
  LEADER_URL := "http://leader";
  FOLLOWER_URLS := ["http://f1"; "http://f2"];
  NUM_KEYS := 2;
  NUM_WRITES_PER_KEY := 2;
  CONCURRENT_WRITES := 2;
  QUORUM_VALUES := [1; 2; 3]%Z
|}.

Definition small_world (leader_data f1_data f2_data : dict value) : sim_world := {|
  node_leader := "http://leader";
  stores := [("http://leader", leader_data); ("http://f1", f1_data);
             ("http://f2", f2_data)];
  lagging := [];
  offline := [];
  failing_keys := [];
  rejected_quorums := [];
  write_quorum := 1;
  ticks := 0
|}.

(** The leader a:1, b:2, c:3 with a follower that lags and a follower that
    has everything and one key more. *)
Definition example_world : sim_world :=
  small_world [("a", VInt 1); ("b", VInt 2); ("c", VInt 3)]
              [("a", VInt 1); ("b", VInt 9)]
              [("a", VInt 1); ("b", VInt 2); ("c", VInt 3); ("z", VInt 0)].

(** The same world with the first follower unreachable. *)
Definition offline_world : sim_world := {|
  node_leader := node_leader example_world;
  stores := stores example_world;
  lagging := [];
  offline := ["http://f1"];
  failing_keys := [];
  rejected_quorums := [];
  write_quorum := 1;
  ticks := 0
|}.

(** The same world with the leader unreachable. *)
Definition leader_down_world : sim_world := {|
  node_leader := node_leader example_world;
  stores := stores example_world;
  lagging := [];
  offline := ["http://leader"];
  failing_keys := [];
  rejected_quorums := [];
  write_quorum := 1;
  ticks := 0
|}.

(** An empty store that refuses the quorum value 2. *)
Definition rejecting_world : sim_world := {|
  node_leader := "http://leader";
  stores := [("http://leader", []); ("http://f1", []); ("http://f2", [])];
  lagging := ["http://f2"];
  offline := [];
  failing_keys := [];
  rejected_quorums := [2%Z];
  write_quorum := 1;
  ticks := 0
|}.

(** An empty store that refuses the writes to key_1. *)
Definition flaky_world : sim_world := {|
  node_leader := "http://leader";
  stores := [("http://leader", []); ("http://f1", []); ("http://f2", [])];
  lagging := [];
  offline := [];
  failing_keys := ["key_1"];
  rejected_quorums := [];
  write_quorum := 1;
  ticks := 0
|}.

(** * Properties *)

(** ** Classification of the leader's keys *)

Section Classification.
Variable follower_data : dict value.

Lemma classify_fold (leader_data : dict value) (m : nat) (mm ms : list string) :
  fold_left (classify_step follower_data) leader_data (m, mm, ms) =
  (m + List.length (filter (in_matching follower_data) leader_data),
   (mm ++ map fst (filter (in_mismatched follower_data) leader_data))%list,
   (ms ++ map fst (filter (in_missing follower_data) leader_data))%list).
Proof.
  revert m mm ms.
  induction leader_data as [| [k v] rest IH]; intros m mm ms.
  - simpl. now rewrite Nat.add_0_r, !app_nil_r.
  - cbn [fold_left filter].
    unfold classify_step at 2, in_matching at 1, in_mismatched at 1,
      in_missing at 1.
    cbn [fst snd].
    destruct (dict_get String.eqb k follower_data) as [fv |].
    + destruct (value_eqb v fv); cbn [negb]; rewrite IH; cbn [List.length map fst].
      * f_equal. f_equal. lia.
      * now rewrite <- app_assoc.
    + rewrite IH. cbn [map fst]. now rewrite <- app_assoc.
Qed.

Lemma classify_buckets (leader_data : dict value) :
  classify leader_data follower_data =
  (List.length (filter (in_matching follower_data) leader_data),
   map fst (filter (in_mismatched follower_data) leader_data),
   map fst (filter (in_missing follower_data) leader_data)).
Proof. unfold classify. now rewrite classify_fold. Qed.

Lemma buckets_exclusive (kv : string * value) :
  exactly_one (in_matching follower_data kv) (in_mismatched follower_data kv)
              (in_missing follower_data kv) = true.
Proof.
  unfold in_matching, in_mismatched, in_missing.
  destruct (dict_get String.eqb (fst kv) follower_data) as [fv |]; [| reflexivity].
  now destruct (value_eqb (snd kv) fv).
Qed.

Lemma buckets_cover (leader_data : dict value) :
  List.length (filter (in_matching follower_data) leader_data)
  + List.length (filter (in_mismatched follower_data) leader_data)
  + List.length (filter (in_missing follower_data) leader_data)
  = List.length leader_data.
Proof.
  induction leader_data as [| kv rest IH]; [reflexivity |].
  pose proof (buckets_exclusive kv) as Hone. cbn [filter].
  destruct (in_matching follower_data kv), (in_mismatched follower_data kv),
    (in_missing follower_data kv); try discriminate Hone;
    cbn [List.length]; lia.
Qed.

End Classification.

Lemma make_entry_counts (i : nat) (leader_data follower_data : dict value) :
  matching_count (make_entry i leader_data follower_data)
  + mismatched_values (make_entry i leader_data follower_data)
  + missing_keys (make_entry i leader_data follower_data)
  = List.length leader_data.
Proof.
  unfold make_entry. rewrite classify_buckets. simpl.
  rewrite !length_map. apply buckets_cover.
Qed.

(** Whatever holds of every entry built from the leader's data holds of
    every entry of the report. *)
Lemma check_followers_Forall (env : environment) (P : follower_entry -> Prop)
    (leader_data : dict value) :
  (forall i follower_data, P (make_entry i leader_data follower_data)) ->
  forall urls i w, Forall P (fst (check_followers env leader_data i urls w)).
Proof.
  intros HP urls. induction urls as [| url rest IH]; intros i w; simpl.
  - constructor.
  - destruct (get_all_data env url w) as [follower_data w1].
    specialize (IH (S i) w1).
    destruct (check_followers env leader_data (S i) rest w1) as [entries w2].
    simpl in *. constructor; [apply HP | exact IH].
Qed.

Lemma check_consistency_report (env : environment) (cfg : config)
    (keys : option (list string)) (w : world env) :
  fst (check_consistency env cfg keys w) =
  {| leader_keys := List.length (checked_leader_data env cfg keys w);
     followers :=
       fst (check_followers env (checked_leader_data env cfg keys w) 1
              (FOLLOWER_URLS cfg) (snd (get_all_data env (LEADER_URL cfg) w)));
     consistency_pct := None |}.
Proof.
  unfold check_consistency, checked_leader_data.
  destruct (get_all_data env (LEADER_URL cfg) w) as [leader_dump w1]. simpl.
  now destruct (check_followers env (restrict keys leader_dump) 1
                  (FOLLOWER_URLS cfg) w1).
Qed.

(** ** The entries of a report *)

Lemma value_eqb_eq (a b : value) : value_eqb a b = true -> a = b.
Proof.
  destruct a as [s | x], b as [t | y]; simpl; try discriminate; intros H.
  - apply String.eqb_eq in H. now subst.
  - apply Z.eqb_eq in H. now subst.
Qed.

Lemma filter_nil_all_false {A : Type} (f : A -> bool) (l : list A) :
  filter f l = [] -> Forall (fun x => f x = false) l.
Proof.
  induction l as [| x rest IH]; simpl; [constructor |].
  destruct (f x) eqn:Hfx; [discriminate |].
  intros H. constructor; auto.
Qed.

Lemma dict_get_app {V : Type} (k : string) (d extra : dict V) :
  dict_get String.eqb k (d ++ extra)%list =
  match dict_get String.eqb k d with
  | Some v => Some v
  | None => dict_get String.eqb k extra
  end.
Proof.
  induction d as [| [k' v'] rest IH]; simpl; [reflexivity |].
  now destruct (String.eqb k k').
Qed.

Lemma matches_leader_buckets (i : nat) (leader_data follower_data : dict value) :
  matches_leader (make_entry i leader_data follower_data) = true <->
  filter (in_mismatched follower_data) leader_data = [] /\
  filter (in_missing follower_data) leader_data = [].
Proof.
  unfold make_entry. rewrite classify_buckets. cbn [matches_leader].
  rewrite andb_true_iff, !Nat.eqb_eq, !length_map, !length_zero_iff_nil.
  reflexivity.
Qed.

Lemma matches_leader_counts (i : nat) (leader_data follower_data : dict value) :
  matches_leader (make_entry i leader_data follower_data) = true <->
  mismatched_values (make_entry i leader_data follower_data) = 0 /\
  missing_keys (make_entry i leader_data follower_data) = 0.
Proof.
  unfold make_entry. rewrite classify_buckets.
  cbn [matches_leader mismatched_values missing_keys].
  now rewrite andb_true_iff, !Nat.eqb_eq.
Qed.

Lemma matches_leader_values (i : nat) (leader_data follower_data : dict value) :
  matches_leader (make_entry i leader_data follower_data) = true ->
  Forall (fun kv => dict_get String.eqb (fst kv) follower_data = Some (snd kv))
         leader_data.
Proof.
  intros H. apply matches_leader_buckets in H. destruct H as [Hmm Hms].
  apply filter_nil_all_false in Hmm. apply filter_nil_all_false in Hms.
  rewrite Forall_forall in *. intros kv Hin.
  specialize (Hmm kv Hin). specialize (Hms kv Hin).
  unfold in_mismatched in Hmm. unfold in_missing in Hms.
  destruct (dict_get String.eqb (fst kv) follower_data) as [fv |];
    [| discriminate].
  apply negb_false_iff, value_eqb_eq in Hmm. now subst.
Qed.

Lemma filter_agree {A : Type} (f g : A -> bool) (l : list A) :
  Forall (fun x => f x = g x) l -> filter f l = filter g l.
Proof.
  intros H. apply filter_ext_in. now apply Forall_forall.
Qed.

Lemma matches_leader_extra_keys (i : nat) (leader_data follower_data extra : dict value) :
  Forall (fun kv => dict_get String.eqb (fst kv) extra = None) leader_data ->
  make_entry i leader_data (follower_data ++ extra)%list =
  {| follower := follower (make_entry i leader_data follower_data);
     keys := List.length (follower_data ++ extra)%list;
     matches_leader := matches_leader (make_entry i leader_data follower_data);
     matching_count := matching_count (make_entry i leader_data follower_data);
     mismatched_values := mismatched_values (make_entry i leader_data follower_data);
     missing_keys := missing_keys (make_entry i leader_data follower_data);
     mismatched_examples :=
       mismatched_examples (make_entry i leader_data follower_data) |}.
Proof.
  intros Hextra.
  assert (Hget : Forall (fun kv =>
            dict_get String.eqb (fst kv) (follower_data ++ extra)%list =
            dict_get String.eqb (fst kv) follower_data) leader_data).
  { eapply Forall_impl; [| exact Hextra]. intros kv Hkv. cbn beta in *.
    rewrite dict_get_app, Hkv.
    now destruct (dict_get String.eqb (fst kv) follower_data). }
  unfold make_entry. rewrite !classify_buckets.
  rewrite (filter_agree (in_matching (follower_data ++ extra)%list)
             (in_matching follower_data)),
          (filter_agree (in_mismatched (follower_data ++ extra)%list)
             (in_mismatched follower_data)),
          (filter_agree (in_missing (follower_data ++ extra)%list)
             (in_missing follower_data)).
  - reflexivity.
  - eapply Forall_impl; [| exact Hget]. intros kv Hkv. cbn beta in *.
    unfold in_missing. now rewrite Hkv.
  - eapply Forall_impl; [| exact Hget]. intros kv Hkv. cbn beta in *.
    unfold in_mismatched. now rewrite Hkv.
  - eapply Forall_impl; [| exact Hget]. intros kv Hkv. cbn beta in *.
    unfold in_matching. now rewrite Hkv.
Qed.

Section Followers.
Variable env : environment.
Variable leader_data : dict value.

Lemma check_followers_length (urls : list string) (i : nat) (w : world env) :
  List.length (fst (check_followers env leader_data i urls w)) = List.length urls.
Proof.
  revert i w. induction urls as [| url rest IH]; intros i w; simpl; [reflexivity |].
  destruct (get_all_data env url w) as [follower_data w1].
  specialize (IH (S i) w1).
  destruct (check_followers env leader_data (S i) rest w1) as [entries w2].
  simpl in *. now rewrite IH.
Qed.

(** Entry number [j] comes from the dump of url number [j], requested in the
    world the dumps before it have left. *)
Lemma check_followers_nth (urls : list string) (j i : nat) (w : world env) (url : string) :
  nth_error urls j = Some url ->
  nth_error (fst (check_followers env leader_data i urls w)) j =
  Some (make_entry (i + j) leader_data
          (fst (get_all_data env url
                  (snd (check_followers env leader_data i (firstn j urls) w))))).
Proof.
  revert j i w. induction urls as [| u rest IH]; intros j i w Hj.
  - destruct j; discriminate.
  - destruct j as [| j'].
    + injection Hj as ->. simpl.
      destruct (get_all_data env url w) as [follower_data w1].
      destruct (check_followers env leader_data (S i) rest w1) as [entries w2].
      simpl. now rewrite Nat.add_0_r.
    + simpl in Hj. simpl.
      destruct (get_all_data env u w) as [follower_data w1].
      specialize (IH j' (S i) w1 Hj).
      destruct (check_followers env leader_data (S i) rest w1) as [entries w2].
      destruct (check_followers env leader_data (S i) (firstn j' rest) w1)
        as [entries' w2'].
      simpl in *. rewrite IH. do 2 f_equal. lia.
Qed.

Lemma check_followers_names (urls : list string) (i : nat) (w : world env) :
  map follower (fst (check_followers env leader_data i urls w)) =
  map (fun n => "f" ++ string_of_nat n) (seq i (List.length urls)).
Proof.
  revert i w. induction urls as [| url rest IH]; intros i w; simpl; [reflexivity |].
  destruct (get_all_data env url w) as [follower_data w1].
  specialize (IH (S i) w1).
  destruct (check_followers env leader_data (S i) rest w1) as [entries w2].
  simpl in *. rewrite IH. f_equal.
  unfold make_entry. now destruct (classify leader_data follower_data) as [[? ?] ?].
Qed.

End Followers.

Lemma report_nth (env : environment) (cfg : config) (keys : option (list string))
    (w : world env) (j : nat) (url : string) :
  nth_error (FOLLOWER_URLS cfg) j = Some url ->
  nth_error (followers (fst (check_consistency env cfg keys w))) j =
  Some (make_entry (S j) (checked_leader_data env cfg keys w)
          (fst (get_all_data env url (dump_world env cfg keys j w)))).
Proof.
  intros Hj. rewrite check_consistency_report. cbn [followers].
  now rewrite (check_followers_nth _ _ _ _ _ _ url Hj).
Qed.

(** C3: for every follower, check_consistency puts every checked leader key
    into exactly one of the buckets matching (the follower's dump binds the
    key to an identical value), mismatched (to a different value) and
    missing (the dump lacks the key): the follower's entry counts exactly
    the keys of each bucket, lists the first mismatched keys as examples,
    and its three counts add up to the leader's key count. The leader a:1,
    b:2, c:3 against the follower a:1, b:9 gives one match, b mismatched and
    c missing. *)
Theorem classification_partitions_leader_keys (env : environment) (cfg : config)
    (only : option (list string)) (w : world env) (j : nat) (url : string) :
  nth_error (FOLLOWER_URLS cfg) j = Some url ->
  let leader_data := checked_leader_data env cfg only w in
  let follower_data :=
    fst (get_all_data env url (dump_world env cfg only j w)) in
  exists e : follower_entry,
    nth_error (followers (fst (check_consistency env cfg only w))) j = Some e
    /\ matching_count e
       = List.length (filter (in_matching follower_data) leader_data)
    /\ mismatched_values e
       = List.length (filter (in_mismatched follower_data) leader_data)
    /\ missing_keys e
       = List.length (filter (in_missing follower_data) leader_data)
    /\ mismatched_examples e
       = firstn 3 (map fst (filter (in_mismatched follower_data) leader_data))
    /\ Forall (fun kv => exactly_one (in_matching follower_data kv)
                           (in_mismatched follower_data kv)
                           (in_missing follower_data kv) = true) leader_data
    /\ matching_count e + mismatched_values e + missing_keys e
       = leader_keys (fst (check_consistency env cfg only w))
    /\ leader_keys (fst (check_consistency env cfg only w))
       = List.length leader_data
    /\ classify [("a", VInt 1); ("b", VInt 2); ("c", VInt 3)]
                [("a", VInt 1); ("b", VInt 9)] = (1, ["b"], ["c"])
    /\ filter (in_matching [("a", VInt 1); ("b", VInt 9)])
              [("a", VInt 1); ("b", VInt 2); ("c", VInt 3)] = [("a", VInt 1)].
Proof.
  intros Hj leader_data follower_data. eexists.
  split; [apply (report_nth env cfg only w j url Hj) |].
  fold leader_data follower_data.
  unfold make_entry. rewrite classify_buckets.
  cbn [matching_count mismatched_values missing_keys mismatched_examples].
  rewrite !length_map.
  split; [reflexivity |]. split; [reflexivity |]. split; [reflexivity |].
  split; [reflexivity |].
  split; [apply Forall_forall; intros kv _; apply buckets_exclusive |].
  split; [| split; [| split; reflexivity]].
  - rewrite check_consistency_report. cbn [leader_keys].
    apply buckets_cover.
  - rewrite check_consistency_report. reflexivity.
Qed.

Lemma classification_partitions_leader_keys_witness :
  nth_error (followers (fst (check_consistency sim_env small_config None
                               example_world))) 0
  = Some {| follower := "f1"; keys := 2; matches_leader := false;
            matching_count := 1; mismatched_values := 1; missing_keys := 1;
            mismatched_examples := ["b"] |}.
Proof.
  destruct (classification_partitions_leader_keys sim_env small_config None
              example_world 0 "http://f1" eq_refl)
    as [e [He _]].
  rewrite He. vm_compute in He. now injection He as <-.
Defined.

Lemma nothing_matches_empty (leader_data : dict value) :
  filter (in_matching []) leader_data = []
  /\ filter (in_mismatched []) leader_data = []
  /\ filter (in_missing []) leader_data = leader_data.
Proof.
  induction leader_data as [| kv rest [IH1 [IH2 IH3]]]; [now repeat split |].
  repeat split; [exact IH1 | exact IH2 |].
  cbn [filter]. unfold in_missing at 1. cbn [dict_get]. now rewrite IH3.
Qed.

Lemma make_entry_empty (i : nat) (leader_data : dict value) :
  make_entry i leader_data [] = all_missing_entry i (List.length leader_data).
Proof.
  unfold make_entry. rewrite classify_buckets.
  destruct (nothing_matches_empty leader_data) as [H1 [H2 H3]].
  rewrite H1, H2, H3. cbn [map]. rewrite length_map. reflexivity.
Qed.

Lemma get_json_failed (env : environment) (full_url : string) (w : world env) :
  dump_failed (fst (requests_get env full_url w)) = true ->
  fst (get_json env full_url w) = [].
Proof.
  unfold get_json.
  destruct (requests_get env full_url w) as [[status_code b |] w']; simpl.
  - destruct b as [members |].
    + intros H. apply negb_true_iff in H. now rewrite H.
    + intros _. now destruct (Z.eqb status_code 200).
  - reflexivity.
Qed.

(** C9: a dump that fails (an exception such as a timeout, or a status other
    than 200) yields the empty mapping, for any node; and a follower whose
    dump fails still gets its entry in the report, with every checked leader
    key counted as missing, no match and no mismatch. *)
Theorem failed_dump_reports_all_missing (env : environment) (cfg : config)
    (keys : option (list string)) (w : world env) (j : nat) (url : string) :
  nth_error (FOLLOWER_URLS cfg) j = Some url ->
  dump_failed (fst (requests_get env (url ++ "/dump")
                      (dump_world env cfg keys j w))) = true ->
  (forall node w', dump_failed (fst (requests_get env (node ++ "/dump") w')) = true ->
                   fst (get_all_data env node w') = [])
  /\ nth_error (followers (fst (check_consistency env cfg keys w))) j =
     Some (all_missing_entry (S j)
             (leader_keys (fst (check_consistency env cfg keys w)))).
Proof.
  intros Hj Hfail. split.
  - intros node w'. apply get_json_failed.
  - rewrite (report_nth env cfg keys w j url Hj).
    unfold get_all_data. rewrite (get_json_failed _ _ _ Hfail).
    rewrite make_entry_empty, check_consistency_report. reflexivity.
Qed.

Lemma failed_dump_reports_all_missing_witness :
  nth_error (followers (fst (check_consistency sim_env small_config None
                               offline_world))) 0 =
  Some {| follower := "f1"; keys := 0; matches_leader := false;
          matching_count := 0; mismatched_values := 0; missing_keys := 3;
          mismatched_examples := [] |}.
Proof.
  exact (proj2 (failed_dump_reports_all_missing sim_env small_config None
                  offline_world 0 "http://f1" eq_refl eq_refl)).
Defined.

(** C4: the entry of a follower has matches_leader true exactly when its
    mismatched and missing counts are both zero; then the follower's dump
    binds every checked leader key to the leader's value; and keys that the
    follower holds beyond the leader's do not change the entry's verdict. *)
Theorem matches_leader_iff_nothing_mismatched_or_missing (env : environment)
    (cfg : config) (keys : option (list string)) (w : world env) (j : nat)
    (url : string) :
  nth_error (FOLLOWER_URLS cfg) j = Some url ->
  exists e : follower_entry,
    nth_error (followers (fst (check_consistency env cfg keys w))) j = Some e
    /\ (matches_leader e = true <->
        mismatched_values e = 0 /\ missing_keys e = 0)
    /\ (matches_leader e = true ->
        Forall (fun kv =>
                  dict_get String.eqb (fst kv)
                    (fst (get_all_data env url (dump_world env cfg keys j w)))
                  = Some (snd kv))
               (checked_leader_data env cfg keys w))
    /\ (forall extra : dict value,
          Forall (fun kv => dict_get String.eqb (fst kv) extra = None)
                 (checked_leader_data env cfg keys w) ->
          matches_leader
            (make_entry (S j) (checked_leader_data env cfg keys w)
               (fst (get_all_data env url (dump_world env cfg keys j w))
                ++ extra)%list)
          = matches_leader e).
Proof.
  intros Hj. eexists. split; [apply (report_nth env cfg keys w j url Hj) |].
  split; [apply matches_leader_counts |].
  split; [apply matches_leader_values |].
  intros extra Hextra. now rewrite (matches_leader_extra_keys _ _ _ _ Hextra).
Qed.

Lemma matches_leader_iff_nothing_mismatched_or_missing_witness :
  exists e : follower_entry,
    nth_error (followers (fst (check_consistency sim_env small_config None
                                 example_world))) 1 = Some e
    /\ matches_leader e = true /\ keys e = 4.
Proof.
  destruct (matches_leader_iff_nothing_mismatched_or_missing sim_env
              small_config None example_world 1 "http://f2" eq_refl)
    as [e [He _]].
  exists e. split; [exact He |].
  vm_compute in He. injection He as <-. split; reflexivity.
Defined.

Lemma string_of_nat_inj (m n : nat) : string_of_nat m = string_of_nat n -> m = n.
Proof.
  unfold string_of_nat. intros H.
  apply (f_equal NilEmpty.uint_of_string) in H.
  rewrite !NilEmpty.usu in H. injection H as H.
  apply (f_equal Nat.of_uint) in H. now rewrite !Unsigned.of_to in H.
Qed.

(** C10: a report holds exactly one entry per configured follower URL, in
    the order of the configuration and named f1, f2, ..., fN, whatever the
    requests return. *)
Theorem one_entry_per_follower (env : environment) (cfg : config)
    (keys : option (list string)) (w : world env) :
  List.length (followers (fst (check_consistency env cfg keys w)))
  = List.length (FOLLOWER_URLS cfg)
  /\ map follower (followers (fst (check_consistency env cfg keys w)))
     = map (fun n => "f" ++ string_of_nat n)
           (seq 1 (List.length (FOLLOWER_URLS cfg)))
  /\ NoDup (map follower (followers (fst (check_consistency env cfg keys w)))).
Proof.
  rewrite check_consistency_report. cbn [followers].
  rewrite check_followers_length, check_followers_names.
  repeat split.
  apply Injective_map_NoDup; [| apply seq_NoDup].
  intros m n H. injection H as H. now apply string_of_nat_inj.
Qed.

(** ** The keys argument *)

Lemma list_mem_In (k : string) (ks : list string) :
  list_mem k ks = true -> In k ks.
Proof.
  unfold list_mem. rewrite existsb_exists. intros [k' [Hin Heq]].
  apply String.eqb_eq in Heq. now subst.
Qed.

Lemma restrict_some (ks : list string) (leader_dump : dict value) :
  restrict (Some ks) leader_dump =
  match ks with
  | [] => leader_dump
  | _ :: _ => filter (fun kv => list_mem (fst kv) ks) leader_dump
  end.
Proof. now destruct ks. Qed.

Lemma In_firstn {A : Type} (n : nat) (l : list A) (x : A) :
  In x (firstn n l) -> In x l.
Proof.
  intros H. rewrite <- (firstn_skipn n l). apply in_or_app. now left.
Qed.

Lemma examples_among_leader_keys (i : nat) (leader_data follower_data : dict value) :
  Forall (fun k => In k (dict_keys leader_data))
         (mismatched_examples (make_entry i leader_data follower_data)).
Proof.
  unfold make_entry. rewrite classify_buckets. cbn [mismatched_examples].
  apply Forall_forall. intros k Hk. apply In_firstn in Hk.
  apply in_map_iff in Hk. destruct Hk as [kv [Hfst Hin]].
  apply filter_In in Hin. unfold dict_keys. apply in_map_iff.
  exists kv. tauto.
Qed.

(** The leader's data is restricted to a keys list that is not empty. *)
Lemma nonempty_keys_restrict (env : environment) (cfg : config)
    (k : string) (ks : list string) (w : world env) :
  checked_leader_data env cfg (Some (k :: ks)) w
  = filter (fun kv => list_mem (fst kv) (k :: ks))
           (fst (get_all_data env (LEADER_URL cfg) w)).
Proof. reflexivity. Qed.

(** C2: the code does not apply an empty keys list. A list that is not
    empty restricts the leader's data to its keys, as specified, and
    save_stores restricts its stores to the keys of any list, the empty one
    included; but check_consistency tests the list for truth, so that for
    the empty list it reports on every key of the leader's dump, exactly as
    without a list: on the leader a:1, b:2, c:3 it reports three leader
    keys where the restriction to the empty list has none. *)
Theorem empty_keys_list_is_not_applied :
  (forall (env : environment) (cfg : config) (k : string) (ks : list string)
          (w : world env),
     leader_keys (fst (check_consistency env cfg (Some (k :: ks)) w))
     = List.length
         (filter (fun kv => list_mem (fst kv) (k :: ks))
                 (fst (get_all_data env (LEADER_URL cfg) w))))
  /\ (forall (env : environment) (cfg : config) (w : world env),
        fst (check_consistency env cfg (Some []) w)
        = fst (check_consistency env cfg None w))
  /\ (forall versions : dict value, filter_versions [] versions = [])
  /\ List.length
       (filter (fun kv => list_mem (fst kv) [])
               (fst (get_all_data sim_env (LEADER_URL small_config)
                       example_world))) = 0
  /\ leader_keys (fst (check_consistency sim_env small_config (Some [])
                         example_world)) = 3
  /\ map (fun e => (matching_count e, mismatched_values e, missing_keys e))
         (followers (fst (check_consistency sim_env small_config (Some [])
                            example_world)))
     = [(1, 1, 1); (3, 0, 0)].
Proof.
  split; [| split; [| split; [| repeat split]]].
  - intros env cfg k ks w. rewrite check_consistency_report.
    cbn [leader_keys]. now rewrite nonempty_keys_restrict.
  - intros env cfg w. now rewrite !check_consistency_report.
  - intros versions. reflexivity.
Qed.

(** ** Powers of two *)

Lemma pow2_pos (z : Z) : (0 < 2 ^ z)%Q.
Proof. now apply Qpower_0_lt. Qed.

Lemma pow2_le (a b : Z) : (a <= b)%Z -> (2 ^ a <= 2 ^ b)%Q.
Proof. intros H. now apply Qpower_le_compat_l. Qed.

Lemma pow2_lt (a b : Z) : (a < b)%Z -> (2 ^ a < 2 ^ b)%Q.
Proof. intros H. now apply Qpower_lt_compat_l. Qed.

Lemma pow2_lt_inv (a b : Z) : (2 ^ a < 2 ^ b)%Q -> (a < b)%Z.
Proof. intros H. now apply (Qpower_lt_compat_l_inv 2). Qed.

Lemma pow2_plus (a b : Z) : (2 ^ (a + b) == 2 ^ a * 2 ^ b)%Q.
Proof. now apply Qpower_plus. Qed.

Lemma pow2_int (k : Z) : (0 <= k)%Z -> (2 ^ k == inject_Z (2 ^ k))%Q.
Proof. intros H. now rewrite (Zpower_Qpower 2 k H). Qed.

(** ** The binade of a positive rational *)

Lemma floor_log2_spec (x : Q) :
  (0 < x)%Q ->
  (2 ^ floor_log2 x <= x)%Q /\ (x < 2 ^ (floor_log2 x + 1))%Q.
Proof.
  intros Hx. unfold floor_log2.
  destruct (Qle_bool 1 x) eqn:H1.
  - apply Qle_bool_iff in H1.
    assert (Hf : (1 <= Qfloor x)%Z).
    { change 1%Z with (Qfloor 1). now apply Qfloor_resp_le. }
    destruct (Z.log2_spec (Qfloor x) ltac:(lia)) as [Hlo Hhi].
    pose proof (Z.log2_nonneg (Qfloor x)) as Hnn.
    split.
    + rewrite pow2_int by exact Hnn.
      eapply Qle_trans; [| apply Qfloor_le]. now rewrite <- Zle_Qle.
    + rewrite pow2_int by lia.
      eapply Qlt_le_trans; [apply Qlt_floor |]. rewrite <- Zle_Qle.
      unfold Z.succ in Hhi. lia.
  - assert (Hx1 : (x < 1)%Q).
    { apply Qnot_le_lt. intros H. apply Qle_bool_iff in H. congruence. }
    assert (Hinv : (x * / x == 1)%Q).
    { apply Qmult_inv_r. intros H0. rewrite H0 in Hx. now apply Qlt_irrefl in Hx. }
    assert (Hy : (1 < / x)%Q).
    { apply Qlt_shift_inv_l; [exact Hx |]. now rewrite Qmult_1_l. }
    assert (Hc : (1 < Qceiling (/ x))%Z).
    { rewrite Zlt_Qlt. eapply Qlt_le_trans; [exact Hy | apply Qle_ceiling]. }
    destruct (Z.log2_up_spec (Qceiling (/ x)) Hc) as [Hlo Hhi].
    set (k := Z.log2_up (Qceiling (/ x))) in *.
    assert (Hk : (0 < k)%Z) by (apply Z.log2_up_pos; exact Hc).
    split.
    + rewrite Qpower_opp. apply Qle_shift_inv_r; [apply pow2_pos |].
      rewrite <- Hinv. rewrite (Qmult_comm x (2 ^ k)), (Qmult_comm x (/ x)).
      apply Qmult_le_compat_r; [| now apply Qlt_le_weak].
      eapply Qle_trans; [apply Qle_ceiling |].
      rewrite pow2_int by lia. now rewrite <- Zle_Qle.
    + replace (- k + 1)%Z with (- (k - 1))%Z by lia.
      rewrite Qpower_opp. apply Qlt_shift_inv_l; [apply pow2_pos |].
      rewrite <- Hinv. rewrite (Qmult_comm x (2 ^ (k - 1))), (Qmult_comm x (/ x)).
      apply Qmult_lt_compat_r; [exact Hx |].
      eapply Qle_lt_trans; [| apply Qceiling_lt].
      rewrite pow2_int by lia. rewrite <- Zle_Qle.
      unfold Z.pred in Hlo. replace (k + -1)%Z with (k - 1)%Z in Hlo by lia. lia.
Qed.

Lemma floor_log2_mono (x y : Q) :
  (0 < x)%Q -> (x <= y)%Q -> (floor_log2 x <= floor_log2 y)%Z.
Proof.
  intros Hx Hxy.
  destruct (floor_log2_spec x Hx) as [Hlo _].
  destruct (floor_log2_spec y) as [_ Hhi]; [eapply Qlt_le_trans; eassumption |].
  assert (H : (2 ^ floor_log2 x < 2 ^ (floor_log2 y + 1))%Q).
  { eapply Qle_lt_trans; [exact Hlo |]. eapply Qle_lt_trans; eassumption. }
  apply pow2_lt_inv in H. lia.
Qed.

Lemma quantum_exp_mono (x y : Q) :
  (0 < x)%Q -> (x <= y)%Q -> (quantum_exp x <= quantum_exp y)%Z.
Proof.
  intros Hx Hxy. unfold quantum_exp.
  pose proof (floor_log2_mono x y Hx Hxy). lia.
Qed.

(** ** Rounding to an integer *)

Lemma round_half_even_le (y : Q) (k : Z) :
  (y <= inject_Z k)%Q -> (round_half_even y <= k)%Z.
Proof.
  intros Hy. unfold round_half_even.
  pose proof (Qfloor_le y) as Hf.
  assert (Hfk : (Qfloor y <= k)%Z).
  { rewrite Zle_Qle. eapply Qle_trans; eassumption. }
  assert (Hstrict : (inject_Z (Qfloor y) < y)%Q -> (Qfloor y + 1 <= k)%Z).
  { intros Hlt. assert (H : (Qfloor y < k)%Z).
    { rewrite Zlt_Qlt. eapply Qlt_le_trans; eassumption. }
    lia. }
  destruct (Qcompare_spec (y - inject_Z (Qfloor y)) (1 # 2)) as [He | Hl | Hg].
  - destruct (Z.even (Qfloor y)); [exact Hfk |]. apply Hstrict. lra.
  - exact Hfk.
  - apply Hstrict. lra.
Qed.

Lemma round_half_even_ge (y : Q) (k : Z) :
  (inject_Z k <= y)%Q -> (k <= round_half_even y)%Z.
Proof.
  intros Hy. unfold round_half_even.
  assert (Hkf : (k <= Qfloor y)%Z).
  { rewrite <- (Qfloor_Z k). now apply Qfloor_resp_le. }
  destruct (Qcompare (y - inject_Z (Qfloor y)) (1 # 2));
    [destruct (Z.even (Qfloor y)) | |]; lia.
Qed.

(** ** Doubles and their grid *)

Lemma on_grid_finer (q q' : Z) (b : Q) :
  on_grid q b -> (q' <= q)%Z -> on_grid q' b.
Proof.
  intros [k Hk] Hq. exists (k * 2 ^ (q - q'))%Z.
  rewrite Hk, inject_Z_mult, <- pow2_int by lia.
  replace q with ((q - q') + q')%Z at 1 by lia.
  rewrite pow2_plus. ring.
Qed.

Lemma round_pos_nonneg (x : Q) : (0 < x)%Q -> (0 <= round_pos x)%Q.
Proof.
  intros Hx. unfold round_pos.
  apply Qmult_le_0_compat; [| apply Qlt_le_weak, pow2_pos].
  change 0%Q with (inject_Z 0). rewrite <- Zle_Qle.
  apply round_half_even_ge. change (inject_Z 0) with 0%Q.
  apply Qle_shift_div_l; [apply pow2_pos |]. rewrite Qmult_0_l.
  now apply Qlt_le_weak.
Qed.

(** Rounding does not pass a grid point above. *)
Lemma round_pos_le (x b : Q) :
  (0 < x)%Q -> (x <= b)%Q -> grid_point b -> (round_pos x <= b)%Q.
Proof.
  intros Hx Hxb [Hb Hgrid].
  destruct (on_grid_finer _ (quantum_exp x) b Hgrid
              (quantum_exp_mono x b Hx Hxb)) as [k Hk].
  unfold round_pos. rewrite Hk.
  apply Qmult_le_compat_r; [| apply Qlt_le_weak, pow2_pos].
  rewrite <- Zle_Qle. apply round_half_even_le.
  apply Qle_shift_div_r; [apply pow2_pos |]. now rewrite <- Hk.
Qed.

Lemma grid_point_lower (b : Q) : grid_point b -> (2 ^ quantum_exp b <= b)%Q.
Proof.
  intros [Hb [k Hk]].
  assert (Hkpos : (1 <= k)%Z).
  { destruct (Z_lt_le_dec k 1) as [Hlt | Hge]; [| exact Hge].
    exfalso. apply (Qlt_irrefl 0). eapply Qlt_le_trans; [exact Hb |].
    rewrite Hk. setoid_replace 0%Q with (0 * 2 ^ quantum_exp b)%Q by ring.
    apply Qmult_le_compat_r; [| apply Qlt_le_weak, pow2_pos].
    change 0%Q with (inject_Z 0). rewrite <- Zle_Qle. lia. }
  rewrite Hk at 2.
  setoid_replace (2 ^ quantum_exp b)%Q with (1 * 2 ^ quantum_exp b)%Q at 1 by ring.
  apply Qmult_le_compat_r; [| apply Qlt_le_weak, pow2_pos].
  change 1%Q with (inject_Z 1). now rewrite <- Zle_Qle.
Qed.

(** Rounding does not pass a grid point below. *)
Lemma round_pos_ge (x b : Q) :
  (b <= x)%Q -> grid_point b -> (b <= round_pos x)%Q.
Proof.
  intros Hbx Hgp. pose proof Hgp as [Hb Hgrid].
  assert (Hx : (0 < x)%Q) by (eapply Qlt_le_trans; eassumption).
  pose proof (floor_log2_mono b x Hb Hbx) as Hmono.
  destruct (floor_log2_spec b Hb) as [Hblo Hbhi].
  destruct (floor_log2_spec x Hx) as [Hxlo Hxhi].
  destruct (Z.eq_dec (floor_log2 b) (floor_log2 x)) as [Heq | Hne].
  - assert (Hq : quantum_exp b = quantum_exp x)
      by (unfold quantum_exp; now rewrite Heq).
    rewrite Hq in Hgrid. destruct Hgrid as [k Hk].
    unfold round_pos. rewrite Hk at 1.
    apply Qmult_le_compat_r; [| apply Qlt_le_weak, pow2_pos].
    rewrite <- Zle_Qle. apply round_half_even_ge.
    apply Qle_shift_div_l; [apply pow2_pos |]. now rewrite <- Hk.
  - assert (Hlow : (-1074 <= floor_log2 b)%Z).
    { pose proof (grid_point_lower b Hgp) as Hl.
      assert (H : (2 ^ (-1074) < 2 ^ (floor_log2 b + 1))%Q).
      { eapply Qle_lt_trans; [| exact Hbhi].
        eapply Qle_trans; [| exact Hl]. apply pow2_le.
        unfold quantum_exp. lia. }
      apply pow2_lt_inv in H. lia. }
    assert (Hqe : (quantum_exp x <= floor_log2 x)%Z)
      by (unfold quantum_exp; lia).
    assert (Hpow : (2 ^ floor_log2 x
                    == inject_Z (2 ^ (floor_log2 x - quantum_exp x))
                       * 2 ^ quantum_exp x)%Q).
    { rewrite <- pow2_int by lia. rewrite <- pow2_plus.
      now replace (floor_log2 x - quantum_exp x + quantum_exp x)%Z
        with (floor_log2 x) by lia. }
    apply Qle_trans with (2 ^ floor_log2 x)%Q.
    + apply Qlt_le_weak. eapply Qlt_le_trans; [exact Hbhi |].
      apply pow2_le. lia.
    + unfold round_pos. rewrite Hpow at 1.
      apply Qmult_le_compat_r; [| apply Qlt_le_weak, pow2_pos].
      rewrite <- Zle_Qle. apply round_half_even_ge.
      apply Qle_shift_div_l; [apply pow2_pos |]. now rewrite <- Hpow.
Qed.

(** ** Rounding between doubles *)

Lemma not_overflow (r : Q) :
  (r < overflow_threshold)%Q -> Qle_bool overflow_threshold r = false.
Proof.
  intros H. destruct (Qle_bool overflow_threshold r) eqn:Hle; [| reflexivity].
  apply Qle_bool_iff in Hle. exfalso.
  apply (Qlt_irrefl r). eapply Qlt_le_trans; eassumption.
Qed.

Lemma round64_below (x b : Q) :
  (x <= b)%Q -> is_double b -> below (round64 x) b.
Proof.
  intros Hxb Hb. unfold round64.
  destruct (Qcompare_spec x 0) as [H0 | Hneg | Hpos].
  - cbn [below]. now rewrite <- H0.
  - assert (Hx : (0 < - x)%Q) by lra.
    destruct (Qle_bool overflow_threshold (round_pos (- x))); [reflexivity |].
    cbn [below]. rewrite Qred_correct.
    pose proof (round_pos_nonneg (- x) Hx) as Hnn.
    destruct Hb as [Hb | [[[Hb _] _] | [Hgp _]]]; [lra | lra |].
    assert (H : (- b <= round_pos (- x))%Q) by (apply round_pos_ge; [lra | exact Hgp]).
    lra.
  - destruct Hb as [Hb | [[Hgp Hlt] | [[Hb _] _]]]; [lra | | lra].
    pose proof (round_pos_le x b Hpos Hxb Hgp) as Hle.
    rewrite not_overflow by (eapply Qle_lt_trans; eassumption).
    cbn [below]. now rewrite Qred_correct.
Qed.

Lemma round64_above (b x : Q) :
  (b <= x)%Q -> is_double b -> above b (round64 x).
Proof.
  intros Hbx Hb. unfold round64.
  destruct (Qcompare_spec x 0) as [H0 | Hneg | Hpos].
  - cbn [above]. now rewrite <- H0.
  - assert (Hx : (0 < - x)%Q) by lra.
    destruct Hb as [Hb | [[[Hb _] _] | [Hgp Hlt]]]; [lra | lra |].
    assert (Hle : (round_pos (- x) <= - b)%Q)
      by (apply round_pos_le; [exact Hx | lra | exact Hgp]).
    rewrite not_overflow by (eapply Qle_lt_trans; eassumption).
    cbn [above]. rewrite Qred_correct. lra.
  - destruct (Qle_bool overflow_threshold (round_pos x)); [reflexivity |].
    cbn [above]. rewrite Qred_correct.
    pose proof (round_pos_nonneg x Hpos) as Hnn.
    destruct Hb as [Hb | [[Hgp _] | [[Hb _] _]]]; [lra | | lra].
    now apply round_pos_ge.
Qed.

Lemma round64_between (a x b : Q) :
  (a <= x)%Q -> (x <= b)%Q -> is_double a -> is_double b ->
  exists r : Q, round64 x = Finite r /\ (a <= r)%Q /\ (r <= b)%Q.
Proof.
  intros Hax Hxb Ha Hb.
  pose proof (round64_below x b Hxb Hb) as Hbelow.
  pose proof (round64_above a x Hax Ha) as Habove.
  destruct (round64 x) as [r | negative |]; cbn [below above] in *.
  - now exists r.
  - congruence.
  - contradiction.
Qed.


Lemma is_double_1 : is_double 1.
Proof.
  right; left. repeat split. exists (2 ^ 52)%Z. reflexivity.
Qed.


(** ** The binade is determined by its bounds *)

Lemma floor_log2_unique (x : Q) (e : Z) :
  (2 ^ e <= x)%Q -> (x < 2 ^ (e + 1))%Q -> floor_log2 x = e.
Proof.
  intros Hlo Hhi.
  assert (Hx : (0 < x)%Q) by (eapply Qlt_le_trans; [apply pow2_pos | exact Hlo]).
  destruct (floor_log2_spec x Hx) as [Hlo' Hhi'].
  assert (H1 : (2 ^ e < 2 ^ (floor_log2 x + 1))%Q)
    by (eapply Qle_lt_trans; eassumption).
  assert (H2 : (2 ^ floor_log2 x < 2 ^ (e + 1))%Q)
    by (eapply Qle_lt_trans; eassumption).
  apply pow2_lt_inv in H1. apply pow2_lt_inv in H2. lia.
Qed.


Lemma floor_log2_comp (x y : Q) : (x == y)%Q -> floor_log2 x = floor_log2 y.
Proof.
  intros H. unfold floor_log2.
  rewrite (Qleb_comp 1%Q 1%Q (Qeq_refl 1%Q) x y H), (Qfloor_comp x y H).
  now rewrite (Qceiling_comp (/ x) (/ y) (Qinv_comp x y H)).
Qed.

Lemma grid_point_comp (x y : Q) : (x == y)%Q -> grid_point x -> grid_point y.
Proof.
  intros H [Hx [k Hk]]. split; [now rewrite <- H |].
  exists k. unfold quantum_exp in *.
  rewrite <- (floor_log2_comp x y H), <- H. exact Hk.
Qed.

(** ** Overflow *)

Lemma threshold_pos : (0 < overflow_threshold)%Q.
Proof. apply pow2_pos. Qed.

Lemma grid_point_threshold : grid_point overflow_threshold.
Proof.
  split; [apply threshold_pos |]. exists (2 ^ 52)%Z. vm_compute. reflexivity.
Qed.

Lemma round64_not_nan (x : Q) : round64 x <> NaN.
Proof.
  unfold round64. destruct (x ?= 0)%Q; [discriminate | |].
  - destruct (Qle_bool _ _); discriminate.
  - destruct (Qle_bool _ _); discriminate.
Qed.

Lemma Qle_bool_false_lt (x y : Q) : Qle_bool x y = false -> (y < x)%Q.
Proof.
  intros H. apply Qnot_le_lt. intros Hle.
  apply Qle_bool_iff in Hle. congruence.
Qed.

Lemma Finite_inj (a b : Q) : Finite a = Finite b -> a = b.
Proof. congruence. Qed.

Lemma round64_finite_bound (x r : Q) :
  round64 x = Finite r ->
  (- overflow_threshold < r)%Q /\ (r < overflow_threshold)%Q.
Proof.
  pose proof threshold_pos as Hthr. unfold round64.
  destruct (Qcompare_spec x 0) as [H0 | Hneg | Hpos].
  - intros [= <-]. split; lra.
  - destruct (Qle_bool _ _) eqn:Hle; [discriminate |].
    intros Hr%Finite_inj. subst r.
    apply Qle_bool_false_lt in Hle. rewrite Qred_correct.
    assert (Hnn : (0 <= round_pos (- x))%Q) by (apply round_pos_nonneg; lra).
    split; lra.
  - destruct (Qle_bool _ _) eqn:Hle; [discriminate |].
    intros Hr%Finite_inj. subst r.
    apply Qle_bool_false_lt in Hle. rewrite Qred_correct.
    assert (Hnn : (0 <= round_pos x)%Q) by (apply round_pos_nonneg; lra).
    split; lra.
Qed.

Lemma round64_overflow (x : Q) :
  (overflow_threshold <= x)%Q -> round64 x = Infinity false.
Proof.
  intros Hx. pose proof threshold_pos as Hthr. unfold round64.
  destruct (Qcompare_spec x 0) as [H0 | Hneg | Hpos]; [lra | lra |].
  pose proof (round_pos_ge x _ Hx grid_point_threshold) as Hge.
  apply Qle_bool_iff in Hge. now rewrite Hge.
Qed.

Lemma round64_overflow_negative (x : Q) :
  (x <= - overflow_threshold)%Q -> round64 x = Infinity true.
Proof.
  intros Hx. pose proof threshold_pos as Hthr. unfold round64.
  destruct (Qcompare_spec x 0) as [H0 | Hneg | Hpos]; [lra | | lra].
  assert (Hx' : (overflow_threshold <= - x)%Q) by lra.
  pose proof (round_pos_ge (- x) _ Hx' grid_point_threshold) as Hge.
  apply Qle_bool_iff in Hge. now rewrite Hge.
Qed.

(** ** Twice a double *)

Lemma grid_point_twice (b : Q) : grid_point b -> grid_point (2 * b).
Proof.
  intros [Hb [k Hk]].
  destruct (floor_log2_spec b Hb) as [Hlo Hhi].
  assert (He : floor_log2 (2 * b) = (floor_log2 b + 1)%Z).
  { apply floor_log2_unique.
    - rewrite pow2_plus. change (2 ^ 1)%Q with 2%Q. lra.
    - rewrite pow2_plus. change (2 ^ 1)%Q with 2%Q. lra. }
  split; [lra |].
  apply (on_grid_finer (quantum_exp b + 1));
    [| unfold quantum_exp; rewrite He; lia].
  exists k. rewrite pow2_plus. change (2 ^ 1)%Q with 2%Q.
  set (q := quantum_exp b) in *. rewrite Hk. ring.
Qed.

Lemma is_double_twice (b : Q) :
  is_double b ->
  is_double (2 * b)
  \/ (overflow_threshold <= 2 * b)%Q
  \/ (2 * b <= - overflow_threshold)%Q.
Proof.
  intros [H0 | [[Hgp Hlt] | [Hgp Hlt]]].
  - left; left. lra.
  - destruct (Qlt_le_dec (2 * b) overflow_threshold) as [Hsmall | Hbig].
    + left; right; left. split; [now apply grid_point_twice | exact Hsmall].
    + right; left. exact Hbig.
  - destruct (Qlt_le_dec (2 * - b) overflow_threshold) as [Hsmall | Hbig].
    + left; right; right. split; [| lra].
      apply (grid_point_comp (2 * - b)); [ring |].
      now apply grid_point_twice.
    + right; right. lra.
Qed.

(** The average of two doubles, computed in doubles, lies between them;
    it is infinite only when their sum leaves the range of the doubles. *)
Lemma double_average_between (a b : Q) :
  is_double a -> is_double b -> (a <= b)%Q ->
  match double_halve (double_add (Finite a) (Finite b)) with
  | Finite md => (a <= md)%Q /\ (md <= b)%Q
  | Infinity _ =>
      (overflow_threshold <= 2 * b)%Q \/ (2 * a <= - overflow_threshold)%Q
  | NaN => False
  end.
Proof.
  intros Ha Hb Hab. cbn [double_add].
  destruct (round64 (a + b)) as [s | negative |] eqn:Hs; cbn [double_halve].
  - destruct (round64_finite_bound _ _ Hs) as [Hs1 Hs2].
    assert (Hlo : (2 * a <= s)%Q).
    { destruct (is_double_twice a Ha) as [Hd | [Hbig | Hsmall]].
      - assert (Hle : (2 * a <= a + b)%Q) by lra.
        pose proof (round64_above (2 * a) (a + b) Hle Hd) as H.
        now rewrite Hs in H.
      - rewrite round64_overflow in Hs by lra. discriminate.
      - lra. }
    assert (Hhi : (s <= 2 * b)%Q).
    { destruct (is_double_twice b Hb) as [Hd | [Hbig | Hsmall]].
      - assert (Hle : (a + b <= 2 * b)%Q) by lra.
        pose proof (round64_below (a + b) (2 * b) Hle Hd) as H.
        now rewrite Hs in H.
      - lra.
      - rewrite round64_overflow_negative in Hs by lra. discriminate. }
    destruct (round64_between a (s / 2) b) as (r & Hr & H1 & H2);
      [apply Qle_shift_div_l; lra | apply Qle_shift_div_r; lra
      | exact Ha | exact Hb |].
    rewrite Hr. now split.
  - destruct (is_double_twice a Ha) as [Hda | [Hbig | Hsmall]];
      [| left; lra | now right].
    destruct (is_double_twice b Hb) as [Hdb | [Hbig | Hsmall]];
      [| now left | right; lra].
    destruct (round64_between (2 * a) (a + b) (2 * b)) as (r & Hr & _);
      [lra | lra | exact Hda | exact Hdb |].
    rewrite Hr in Hs. discriminate.
  - now apply round64_not_nan in Hs.
Qed.

(** ** Rounding to nearest *)




(** ** calculate_stats *)

Lemma Qle_bool_false (x y : Q) : Qle_bool x y = false -> (y <= x)%Q.
Proof.
  intros H. apply Qlt_le_weak, Qnot_le_lt. intros Hle.
  apply Qle_bool_iff in Hle. congruence.
Qed.

Lemma insert_sorted_perm (x : Q) (l : list Q) :
  Permutation (insert_sorted x l) (x :: l).
Proof.
  induction l as [| y rest IH]; simpl; [reflexivity |].
  destruct (Qle_bool x y); [reflexivity |].
  rewrite IH. apply perm_swap.
Qed.

Lemma sorted_perm (data : list Q) : Permutation (sorted data) data.
Proof.
  induction data as [| x rest IH]; simpl; [reflexivity |].
  rewrite insert_sorted_perm. now constructor.
Qed.

Lemma insert_sorted_hd (a x : Q) (l : list Q) :
  (a <= x)%Q -> HdRel Qle a l -> HdRel Qle a (insert_sorted x l).
Proof.
  intros Hax Hl. destruct l as [| y rest]; simpl.
  - now constructor.
  - destruct (Qle_bool x y); constructor; [exact Hax |].
    now apply HdRel_inv in Hl.
Qed.

Lemma insert_sorted_ordered (x : Q) (l : list Q) :
  Sorted Qle l -> Sorted Qle (insert_sorted x l).
Proof.
  induction 1 as [| y rest Hrest IH Hhd]; simpl.
  - repeat constructor.
  - destruct (Qle_bool x y) eqn:Hxy.
    + constructor; [now constructor |].
      constructor. now apply Qle_bool_iff.
    + constructor; [exact IH |].
      apply insert_sorted_hd; [now apply Qle_bool_false | exact Hhd].
Qed.

Lemma sorted_ordered (data : list Q) : Sorted Qle (sorted data).
Proof.
  induction data as [| x rest IH]; simpl; [constructor |].
  now apply insert_sorted_ordered.
Qed.

Lemma py_min_spec (rest : list Q) (x : Q) :
  In (py_min x rest) (x :: rest)
  /\ (py_min x rest <= x)%Q
  /\ Forall (fun y => (py_min x rest <= y)%Q) rest.
Proof.
  unfold py_min. revert x.
  induction rest as [| y rest' IH]; intros x; simpl.
  - split; [now left | split; [apply Qle_refl | constructor]].
  - destruct (Qle_bool x y) eqn:Hxy.
    + destruct (IH x) as [Hin [Hle Hall]].
      split; [destruct Hin; [now left | now right; right] |].
      split; [exact Hle |].
      constructor; [| exact Hall].
      apply Qle_bool_iff in Hxy. eapply Qle_trans; eassumption.
    + destruct (IH y) as [Hin [Hle Hall]].
      split; [now right |].
      split; [| constructor; assumption].
      apply Qle_bool_false in Hxy. eapply Qle_trans; eassumption.
Qed.

Lemma py_max_spec (rest : list Q) (x : Q) :
  In (py_max x rest) (x :: rest)
  /\ (x <= py_max x rest)%Q
  /\ Forall (fun y => (y <= py_max x rest)%Q) rest.
Proof.
  unfold py_max. revert x.
  induction rest as [| y rest' IH]; intros x; simpl.
  - split; [now left | split; [apply Qle_refl | constructor]].
  - destruct (Qle_bool y x) eqn:Hyx.
    + destruct (IH x) as [Hin [Hle Hall]].
      split; [destruct Hin; [now left | now right; right] |].
      split; [exact Hle |].
      constructor; [| exact Hall].
      apply Qle_bool_iff in Hyx. eapply Qle_trans; eassumption.
    + destruct (IH y) as [Hin [Hle Hall]].
      split; [now right |].
      split; [| constructor; assumption].
      apply Qle_bool_false in Hyx. eapply Qle_trans; eassumption.
Qed.

Lemma Qlen_nonzero (x : Q) (rest : list Q) : ~ (Qlen (x :: rest) == 0)%Q.
Proof.
  unfold Qlen, Qeq, inject_Z. cbn [Qnum Qden List.length]. lia.
Qed.

(** ** The thread pool *)

Lemma remove_nth_length {A : Type} (i : nat) (l : list A) (x : A) :
  nth_error l i = Some x -> List.length l = S (List.length (remove_nth i l)).
Proof.
  revert i. induction l as [| y rest IH]; intros i H.
  - destruct i; discriminate.
  - destruct i as [| i']; [reflexivity |].
    simpl in H. apply IH in H. unfold remove_nth in *. simpl in *. lia.
Qed.

Lemma remove_nth_perm {A : Type} (i : nat) (l : list A) (x : A) :
  nth_error l i = Some x -> Permutation (x :: remove_nth i l) l.
Proof.
  revert i. induction l as [| y rest IH]; intros i H.
  - destruct i; discriminate.
  - destruct i as [| i'].
    + injection H as ->. reflexivity.
    + simpl in H. apply IH in H. unfold remove_nth in *. simpl.
      rewrite perm_swap. now constructor.
Qed.

Section Pool.
Variable env : environment.
Variable max_workers : nat.
Hypothesis workers : 0 < max_workers.

(** The scheduler's pick always names a pending task. *)
Lemma pick_pending (pending : list (string * string)) (w : world env) :
  pending <> [] ->
  exists task,
    nth_error pending
      (Nat.modulo (pick env w (Nat.min max_workers (List.length pending)))
                  (Nat.min max_workers (List.length pending))) = Some task.
Proof.
  intros Hne.
  assert (Hlen : 0 < List.length pending) by (destruct pending; simpl; [easy | lia]).
  set (m := Nat.min max_workers (List.length pending)).
  assert (Hm : 0 < m <= List.length pending) by (unfold m; lia).
  destruct (nth_error pending (Nat.modulo (pick env w m) m)) as [task |] eqn:Hnth.
  - now exists task.
  - apply nth_error_None in Hnth.
    pose proof (Nat.mod_upper_bound (pick env w m) m). lia.
Qed.

Section Results.
Context {A : Type}.
Variable f : string * string -> world env -> A * world env.

(** Every pending task is run: the pool yields one result per task. *)
Lemma pool_run_length (n : nat) :
  forall pending w,
    List.length pending = n ->
    List.length (fst (pool_run env f max_workers n pending w)) = n.
Proof.
  induction n as [| n' IH]; intros pending w Hlen; [reflexivity |].
  cbn [pool_run].
  destruct (pick_pending pending w) as [task Htask];
    [destruct pending; [discriminate | easy] |].
  set (i := Nat.modulo _ _) in *. rewrite Htask.
  destruct (f task w) as [a w1].
  pose proof (remove_nth_length _ _ _ Htask) as Hrem.
  assert (Hlen' : List.length (remove_nth i pending) = n') by lia.
  specialize (IH (remove_nth i pending) w1 Hlen').
  destruct (pool_run env f max_workers n' _ w1) as [rest w2].
  simpl in *. now rewrite IH.
Qed.

Lemma pool_run_Forall (P : A -> Prop) :
  (forall task w, P (fst (f task w))) ->
  forall n pending w, Forall P (fst (pool_run env f max_workers n pending w)).
Proof.
  intros HP n. induction n as [| n' IH]; intros pending w; cbn [pool_run].
  - constructor.
  - destruct (nth_error pending _) as [task |]; [| constructor].
    pose proof (HP task w) as Htask.
    destruct (f task w) as [a w1].
    specialize (IH (remove_nth
      (Nat.modulo (pick env w (Nat.min max_workers (List.length pending)))
                  (Nat.min max_workers (List.length pending))) pending) w1).
    destruct (pool_run env f max_workers n' _ w1) as [rest w2].
    simpl in *. now constructor.
Qed.

(** Each task is run once: the results, read back as tasks, are the pending
    tasks in another order. *)
Lemma pool_run_perm (task_in : A -> string * string) :
  (forall task w, task_in (fst (f task w)) = task) ->
  forall n pending w,
    List.length pending = n ->
    Permutation (map task_in (fst (pool_run env f max_workers n pending w)))
                pending.
Proof.
  intros Hin n. induction n as [| n' IH]; intros pending w Hlen.
  - destruct pending; [reflexivity | discriminate].
  - cbn [pool_run].
    destruct (pick_pending pending w) as [task Htask];
      [destruct pending; [discriminate | easy] |].
    set (i := Nat.modulo _ _) in *. rewrite Htask.
    pose proof (Hin task w) as Hback.
    destruct (f task w) as [a w1].
    pose proof (remove_nth_length _ _ _ Htask) as Hrem.
    pose proof (remove_nth_perm _ _ _ Htask) as Hperm.
    assert (Hlen' : List.length (remove_nth i pending) = n') by lia.
    specialize (IH (remove_nth i pending) w1 Hlen').
    destruct (pool_run env f max_workers n' _ w1) as [rest w2].
    simpl in *. rewrite Hback, IH. exact Hperm.
Qed.

(** A function computed from the results of [g] gives the same run. *)
Lemma pool_run_map {B : Type}
    (g : string * string -> world env -> B * world env) (h : B -> A) :
  (forall task w, f task w = (h (fst (g task w)), snd (g task w))) ->
  forall n pending w,
    pool_run env f max_workers n pending w =
    (map h (fst (pool_run env g max_workers n pending w)),
     snd (pool_run env g max_workers n pending w)).
Proof.
  intros Hfg n. induction n as [| n' IH]; intros pending w; cbn [pool_run].
  - reflexivity.
  - destruct (nth_error pending _) as [task |]; [| reflexivity].
    rewrite Hfg. destruct (g task w) as [b w1]. cbn [fst snd].
    rewrite IH.
    now destruct (pool_run env g max_workers n' _ w1) as [rest w2].
Qed.

End Results.
End Pool.

(** ** The write batch *)

Section Batch.
Variable env : environment.
Variable cfg : config.

Lemma tasks_for_keys_spec (i : Z) (keys : list string) (w : world env) :
  Forall2 task_of (map (fun key => (i, key)) keys)
          (fst (tasks_for_keys env i keys w)).
Proof.
  revert w. induction keys as [| key rest IH]; intros w; simpl; [constructor |].
  destruct (time_time env w) as [now w1]. specialize (IH w1).
  destruct (tasks_for_keys env i rest w1) as [tasks w2].
  simpl in *. constructor; [| exact IH].
  split; [reflexivity | now exists now].
Qed.

Lemma build_tasks_spec (iterations : list Z) (keys : list string) (w : world env) :
  Forall2 task_of (flat_map (fun i => map (fun key => (i, key)) keys) iterations)
          (fst (build_tasks env iterations keys w)).
Proof.
  revert w. induction iterations as [| i rest IH]; intros w; simpl; [constructor |].
  pose proof (tasks_for_keys_spec i keys w) as Hi.
  destruct (tasks_for_keys env i keys w) as [tasks w1]. specialize (IH w1).
  destruct (build_tasks env rest keys w1) as [more w2].
  simpl in *. now apply Forall2_app.
Qed.

Lemma flat_map_pairs_length (iterations : list Z) (keys : list string) :
  List.length (flat_map (fun i => map (fun key => (i, key)) keys) iterations)
  = List.length iterations * List.length keys.
Proof.
  induction iterations as [| i rest IH]; simpl; [reflexivity |].
  now rewrite length_app, length_map, IH.
Qed.

Lemma iteration_major_length (num_writes_per_key : Z) (keys : list string) :
  List.length (iteration_major num_writes_per_key keys)
  = Z.to_nat num_writes_per_key * List.length keys.
Proof.
  unfold iteration_major. rewrite flat_map_pairs_length.
  unfold range. now rewrite length_map, length_seq.
Qed.

Lemma batch_tasks_length (keys : list string) (num_writes_per_key : Z)
    (w : world env) :
  List.length (batch_tasks env keys num_writes_per_key w)
  = Z.to_nat num_writes_per_key * List.length keys.
Proof.
  unfold batch_tasks.
  rewrite <- (Forall2_length (build_tasks_spec _ keys w)).
  apply iteration_major_length.
Qed.

Lemma write_key_sample (task : string * string) (w : world env) :
  write_key env cfg (fst task) (snd task) w =
  (sample_of (fst (post_write env cfg task w)), snd (post_write env cfg task w)).
Proof.
  unfold write_key, post_write, sample_of. cbn [fst snd].
  destruct (requests_post env _ _ w) as [[status_code b |] w']; cbn [fst snd created].
  - now destruct (Z.eqb status_code 201).
  - reflexivity.
Qed.

Lemma post_write_elapsed (task : string * string) (w : world env) :
  (0 <= snd (fst (post_write env cfg task w)))%Q.
Proof.
  unfold post_write. cbn [fst snd].
  apply -> Qle_minus_iff. apply perf_counter_monotonic.
Qed.

(** Keeping the samples that are not negative keeps the elapsed times of
    the created writes. *)
Lemma successful_samples (trace : list (string * string * http_result * Q)) :
  Forall (fun x => (0 <= snd x)%Q) trace ->
  filter (fun latency => Qle_bool 0 latency) (map sample_of trace)
  = map snd (filter (fun x => created (snd (fst x))) trace).
Proof.
  induction 1 as [| x rest Hx Hrest IH]; [reflexivity |].
  cbn [map filter].
  destruct (created (snd (fst x))) eqn:Hcreated.
  - replace (sample_of x) with (snd x) by (unfold sample_of; now rewrite Hcreated).
    apply Qle_bool_iff in Hx. rewrite Hx. cbn [map]. now rewrite IH.
  - replace (sample_of x) with (-1)%Q by (unfold sample_of; now rewrite Hcreated).
    exact IH.
Qed.

(** A batch with a positive concurrency returns, and what it returns is
    computed from the writes of its run. *)
Lemma run_concurrent_writes_trace (keys : list string) (num_writes_per_key concurrency : Z)
    (w : world env) :
  (0 < concurrency)%Z ->
  fst (run_concurrent_writes env cfg keys num_writes_per_key concurrency w)
  = Returned (map snd (filter (fun x => created (snd (fst x)))
                         (write_trace env cfg keys num_writes_per_key concurrency w))).
Proof.
  intros Hc. unfold run_concurrent_writes, write_trace.
  destruct (build_tasks env (range num_writes_per_key) keys w) as [tasks w1].
  destruct (Z.leb_spec concurrency 0) as [Hle | _]; [lia |].
  rewrite (pool_run_map env (Z.to_nat concurrency) _ (post_write env cfg) sample_of
             (write_key_sample)).
  cbn [fst]. rewrite successful_samples; [reflexivity |].
  apply pool_run_Forall. intros task w'. apply post_write_elapsed.
Qed.

End Batch.

Section BatchRun.
Variable env : environment.
Variable cfg : config.
Variable keys : list string.
Variables num_writes_per_key concurrency : Z.
Variable w : world env.
Hypothesis positive : (0 < concurrency)%Z.

Lemma write_trace_length :
  List.length (write_trace env cfg keys num_writes_per_key concurrency w)
  = List.length (batch_tasks env keys num_writes_per_key w).
Proof.
  unfold write_trace, batch_tasks.
  destruct (build_tasks env (range num_writes_per_key) keys w) as [tasks w1].
  cbn [fst]. apply pool_run_length; [lia | reflexivity].
Qed.

Lemma write_trace_perm :
  Permutation
    (map (fun x => fst (fst x))
         (write_trace env cfg keys num_writes_per_key concurrency w))
    (batch_tasks env keys num_writes_per_key w).
Proof.
  unfold write_trace, batch_tasks.
  destruct (build_tasks env (range num_writes_per_key) keys w) as [tasks w1].
  cbn [fst]. apply pool_run_perm; [lia | reflexivity | reflexivity].
Qed.

End BatchRun.

(** C6: a batch never aborts on a failed write: every task is run once, and
    the returned list holds exactly the elapsed times of the writes answered
    with the created status 201, one per such write, so that it is empty
    when every write fails. *)
Theorem failed_writes_contribute_no_sample (env : environment) (cfg : config)
    (keys : list string) (num_writes_per_key concurrency : Z) (w : world env) :
  (0 < concurrency)%Z ->
  exists latencies : list Q,
    fst (run_concurrent_writes env cfg keys num_writes_per_key concurrency w)
    = Returned latencies
    /\ Permutation
         (map (fun x => fst (fst x))
              (write_trace env cfg keys num_writes_per_key concurrency w))
         (batch_tasks env keys num_writes_per_key w)
    /\ latencies =
       map snd (filter (fun x => created (snd (fst x)))
                  (write_trace env cfg keys num_writes_per_key concurrency w))
    /\ List.length latencies =
       List.length (filter (fun x => created (snd (fst x)))
                      (write_trace env cfg keys num_writes_per_key concurrency w))
    /\ (Forall (fun x => created (snd (fst x)) = false)
               (write_trace env cfg keys num_writes_per_key concurrency w) ->
        latencies = []).
Proof.
  intros Hc. eexists.
  split; [now apply run_concurrent_writes_trace |].
  split; [now apply write_trace_perm |].
  split; [reflexivity |].
  split; [apply length_map |].
  intros Hall.
  induction Hall as [| x rest Hx Hrest IH]; [reflexivity |].
  cbn [filter]. now rewrite Hx.
Qed.

Lemma failed_writes_contribute_no_sample_witness :
  exists latencies : list Q,
    fst (run_concurrent_writes sim_env small_config ["key_0"; "key_1"] 2 2
           flaky_world) = Returned latencies
    /\ List.length latencies = 2.
Proof.
  destruct (failed_writes_contribute_no_sample sim_env small_config
              ["key_0"; "key_1"] 2 2 flaky_world eq_refl)
    as [latencies [Hrun [_ [_ [Hlen _]]]]].
  exists latencies. split; [exact Hrun |].
  rewrite Hlen. reflexivity.
Defined.

(** C7: for N keys and M writes per key the batch builds N x M tasks before
    it runs any, iteration by iteration with every key in each iteration,
    runs them all, and returns N x M samples when every write succeeds. *)
Theorem tasks_built_iteration_major (env : environment) (cfg : config)
    (keys : list string) (num_writes_per_key concurrency : Z) (w : world env) :
  (0 <= num_writes_per_key)%Z ->
  (0 < concurrency)%Z ->
  Forall2 task_of (iteration_major num_writes_per_key keys)
          (batch_tasks env keys num_writes_per_key w)
  /\ Z.of_nat (List.length (batch_tasks env keys num_writes_per_key w))
     = (Z.of_nat (List.length keys) * num_writes_per_key)%Z
  /\ List.length (write_trace env cfg keys num_writes_per_key concurrency w)
     = List.length (batch_tasks env keys num_writes_per_key w)
  /\ (Forall (fun x => created (snd (fst x)) = true)
             (write_trace env cfg keys num_writes_per_key concurrency w) ->
      exists latencies : list Q,
        fst (run_concurrent_writes env cfg keys num_writes_per_key concurrency w)
        = Returned latencies
        /\ Z.of_nat (List.length latencies)
           = (Z.of_nat (List.length keys) * num_writes_per_key)%Z).
Proof.
  intros Hm Hc.
  assert (Hcount : Z.of_nat (List.length (batch_tasks env keys num_writes_per_key w))
                   = (Z.of_nat (List.length keys) * num_writes_per_key)%Z).
  { rewrite batch_tasks_length. lia. }
  split; [apply build_tasks_spec |].
  split; [exact Hcount |].
  split; [now apply write_trace_length |].
  intros Hall. eexists.
  split; [now apply run_concurrent_writes_trace |].
  rewrite length_map, <- Hcount, <- (write_trace_length env cfg) with (1 := Hc).
  f_equal. f_equal. apply forallb_filter_id.
  apply forallb_forall. now apply Forall_forall.
Qed.

Lemma tasks_built_iteration_major_witness :
  map fst (batch_tasks sim_env ["a"; "b"; "c"] 2 example_world)
  = ["a"; "b"; "c"; "a"; "b"; "c"]
  /\ exists latencies : list Q,
       fst (run_concurrent_writes sim_env small_config ["a"; "b"; "c"] 2 2
              example_world) = Returned latencies
       /\ Z.of_nat (List.length latencies) = 6%Z.
Proof.
  split; [reflexivity |].
  apply (tasks_built_iteration_major sim_env small_config ["a"; "b"; "c"] 2 2
           example_world ltac:(discriminate) eq_refl).
  vm_compute. repeat constructor.
Defined.

(** ** The sweep *)

Lemma dict_set_keys {K V : Type} (eqb : K -> K -> bool) (k : K) (v : V)
    (d : list (K * V)) :
  dict_keys (dict_set eqb k v d) =
  if existsb (eqb k) (dict_keys d) then dict_keys d
  else (dict_keys d ++ [k])%list.
Proof.
  unfold dict_keys.
  induction d as [| [k' v'] rest IH]; simpl; [reflexivity |].
  destruct (eqb k k'); simpl; [reflexivity |].
  rewrite IH. now destruct (existsb (eqb k) (map fst rest)).
Qed.

Lemma dict_set_Forall {K V : Type} (eqb : K -> K -> bool) (P : V -> Prop)
    (k : K) (v : V) (d : list (K * V)) :
  Forall (fun kv => P (snd kv)) d -> P v ->
  Forall (fun kv => P (snd kv)) (dict_set eqb k v d).
Proof.
  intros Hd Hv. induction Hd as [| [k' v'] rest Hkv Hrest IH]; simpl.
  - now repeat constructor.
  - destruct (eqb k k'); constructor; assumption.
Qed.

Lemma keys_after_distinct (l ks : list Z) :
  NoDup (ks ++ l)%list -> keys_after ks l = (ks ++ l)%list.
Proof.
  unfold keys_after. revert ks.
  induction l as [| q rest IH]; intros ks Hnd; simpl.
  - now rewrite app_nil_r.
  - destruct (existsb (Z.eqb q) ks) eqn:Hq.
    + apply existsb_exists in Hq. destruct Hq as [q' [Hin Heq]].
      apply Z.eqb_eq in Heq. subst q'.
      apply NoDup_remove_2 in Hnd. exfalso. apply Hnd.
      apply in_or_app. now left.
    + replace (ks ++ q :: rest)%list with ((ks ++ [q]) ++ rest)%list in *
        by now rewrite <- app_assoc.
      now apply IH.
Qed.

Lemma sum_bounded (bound : nat) (l : list nat) (a : nat) :
  Forall (fun x => x <= bound) l ->
  fold_left Nat.add l a <= a + bound * List.length l.
Proof.
  intros H. revert a. induction H as [| x rest Hx Hrest IH]; intros a; simpl.
  - lia.
  - specialize (IH (a + x)). lia.
Qed.

(** In a report of check_consistency no follower matches more keys than the
    leader has, so the matches are at most the checked pairs. *)
Lemma total_matching_bounded (env : environment) (cfg : config)
    (keys : option (list string)) (w : world env) :
  total_matching (fst (check_consistency env cfg keys w))
  <= total_keys_checked (fst (check_consistency env cfg keys w)).
Proof.
  unfold total_matching, total_keys_checked.
  set (r := fst (check_consistency env cfg keys w)).
  rewrite <- (length_map matching_count (followers r)).
  apply (sum_bounded (leader_keys r) _ 0).
  apply Forall_map. subst r. rewrite check_consistency_report.
  cbn [followers leader_keys].
  apply check_followers_Forall. intros i follower_data.
  pose proof (make_entry_counts i (checked_leader_data env cfg keys w)
                follower_data). lia.
Qed.

Lemma ratio_in_range (m t : nat) :
  m <= t -> 0 < t ->
  (0 <= inject_Z (Z.of_nat m) / inject_Z (Z.of_nat t) * 100)%Q
  /\ (inject_Z (Z.of_nat m) / inject_Z (Z.of_nat t) * 100 <= 100)%Q.
Proof.
  intros Hmt Ht.
  assert (Hpos : (0 < inject_Z (Z.of_nat t))%Q).
  { change 0%Q with (inject_Z 0). rewrite <- Zlt_Qlt. lia. }
  split.
  - apply Qmult_le_0_compat; [| discriminate].
    apply Qle_shift_div_l; [exact Hpos |].
    rewrite Qmult_0_l. change 0%Q with (inject_Z 0). rewrite <- Zle_Qle. lia.
  - assert (H : (inject_Z (Z.of_nat m) / inject_Z (Z.of_nat t) * 100 <= 1 * 100)%Q).
    { apply Qmult_le_compat_r; [| discriminate].
      apply Qle_shift_div_r; [exact Hpos |].
      rewrite Qmult_1_l. rewrite <- Zle_Qle. lia. }
    exact H.
Qed.

Lemma with_pct_carries (r : consistency_report) :
  total_matching r <= total_keys_checked r ->
  carries_percentage (with_pct r (percentage r)).
Proof.
  intros Hle. exists (percentage r).
  unfold percentage, total_keys_checked in *.
  cbn [with_pct consistency_pct leader_keys followers].
  change (total_matching (with_pct r _)) with (total_matching r).
  split; [reflexivity |].
  destruct (leader_keys r * List.length (followers r)) as [| t'] eqn:Ht.
  - cbn [Nat.ltb Nat.leb Nat.eqb]. repeat split; discriminate.
  - cbn [Nat.eqb]. replace (Nat.ltb 0 (S t')) with true by reflexivity.
    destruct (ratio_in_range (total_matching r) (S t') Hle ltac:(lia)) as [H0 H100].
    repeat split; [exact H0 | exact H100 | discriminate].
Qed.

Section Sweep.
Variable env : environment.
Variable cfg : config.
Hypothesis positive : (0 < CONCURRENT_WRITES cfg)%Z.

(** A quorum value that cannot be set changes nothing but the world. *)
Lemma quorum_iteration_skipped (quorum : Z) (st : sweep_state) (w : world env) :
  fst (set_quorum env cfg quorum w) = false ->
  quorum_iteration env cfg quorum st w
  = (Returned st, snd (set_quorum env cfg quorum w)).
Proof.
  unfold quorum_iteration. destruct (set_quorum env cfg quorum w) as [ok w1].
  cbn [fst snd]. now intros ->.
Qed.

(** A quorum value that is set gets its report, and its statistics when a
    write succeeded. *)
Lemma quorum_iteration_configured (quorum : Z) (st : sweep_state) (w : world env) :
  fst (set_quorum env cfg quorum w) = true ->
  exists (latencies : list Q) (w4 w' : world env) (files : list (string * dict value)),
    let report := fst (check_consistency env cfg (Some (sweep_keys cfg)) w4) in
    quorum_iteration env cfg quorum st w =
    (Returned
       {| all_stats :=
            match latencies with
            | [] => all_stats st
            | _ :: _ =>
                dict_set Z.eqb quorum (calculate_stats latencies) (all_stats st)
            end;
          all_consistency :=
            dict_set Z.eqb quorum (with_pct report (percentage report))
                     (all_consistency st);
          saved := (saved st ++ files)%list |}, w').
Proof.
  unfold quorum_iteration. destruct (set_quorum env cfg quorum w) as [ok w1].
  cbn [fst]. intros ->. cbn [negb].
  pose proof (run_concurrent_writes_trace env cfg (sweep_keys cfg)
                (NUM_WRITES_PER_KEY cfg) (CONCURRENT_WRITES cfg)
                (time_sleep env (1 # 2) w1) positive) as Hrun.
  destruct (run_concurrent_writes env cfg (sweep_keys cfg) (NUM_WRITES_PER_KEY cfg)
              (CONCURRENT_WRITES cfg) (time_sleep env (1 # 2) w1))
    as [result w3].
  cbn [fst] in Hrun. subst result.
  set (latencies := map snd _).
  exists latencies, (time_sleep env 1 w3).
  destruct (check_consistency env cfg (Some (sweep_keys cfg)) (time_sleep env 1 w3))
    as [consistency w5].
  destruct (save_stores env cfg quorum (sweep_keys cfg) "results" w5) as [files w6].
  now exists w6, files.
Qed.

(** The sweep returns, with a report under every configured quorum value
    and statistics under configured values only. *)
Lemma sweep_records (quorums : list Z) :
  forall (st : sweep_state) (w : world env),
    Forall (fun qr => carries_percentage (snd qr)) (all_consistency st) ->
    exists st' : sweep_state,
      fst (sweep env cfg quorums st w) = Returned st'
      /\ dict_keys (all_consistency st')
         = keys_after (dict_keys (all_consistency st))
                      (configured_quorums env cfg quorums st w)
      /\ Forall (fun q => In q (dict_keys (all_stats st))
                          \/ In q (configured_quorums env cfg quorums st w))
                (dict_keys (all_stats st'))
      /\ Forall (fun qr => carries_percentage (snd qr)) (all_consistency st').
Proof.
  induction quorums as [| quorum rest IH]; intros st w Hst.
  - exists st. repeat split; [| exact Hst].
    apply Forall_forall. intros q Hq. now left.
  - cbn [sweep configured_quorums].
    destruct (fst (set_quorum env cfg quorum w)) eqn:Hset.
    + destruct (quorum_iteration_configured quorum st w Hset)
        as [latencies [w4 [w' [files Hit]]]].
      cbv zeta in Hit. rewrite Hit.
      set (report := fst (check_consistency env cfg (Some (sweep_keys cfg)) w4)) in *.
      set (st1 := {| all_stats := _; all_consistency := _; saved := _ |}).
      assert (Hst1 : Forall (fun qr => carries_percentage (snd qr))
                            (all_consistency st1)).
      { apply dict_set_Forall; [exact Hst |].
        apply with_pct_carries, total_matching_bounded. }
      destruct (IH st1 w' Hst1) as [st' [Hrun [Hkeys [Hstats Hpct]]]].
      exists st'. split; [exact Hrun |].
      split; [| split; [| exact Hpct]].
      * rewrite Hkeys. cbn [app keys_after fold_left].
        subst st1. cbn [all_consistency]. now rewrite dict_set_keys.
      * eapply Forall_impl; [| exact Hstats].
        intros q [Hq | Hq]; [| right; now right].
        subst st1. cbn [all_stats] in Hq.
        destruct latencies as [| l ls]; [now left |].
        rewrite dict_set_keys in Hq.
        destruct (existsb (Z.eqb quorum) (dict_keys (all_stats st)));
          [now left |].
        apply in_app_or in Hq. destruct Hq as [Hq | [<- | []]];
          [now left | right; now left].
    + rewrite (quorum_iteration_skipped quorum st w Hset).
      destruct (IH st (snd (set_quorum env cfg quorum w)) Hst)
        as [st' [Hrun [Hkeys [Hstats Hpct]]]].
      exists st'. repeat split; assumption.
Qed.

(** The configured quorum values are quorum values of the list, in the
    order of the list. *)
Lemma configured_in_order (quorums : list Z) :
  forall (st : sweep_state) (w : world env),
    exists outcomes : list bool,
      List.length outcomes = List.length quorums
      /\ configured_quorums env cfg quorums st w
         = map fst (filter snd (combine quorums outcomes)).
Proof.
  induction quorums as [| quorum rest IH]; intros st w.
  - now exists [].
  - cbn [configured_quorums].
    destruct (fst (set_quorum env cfg quorum w)) eqn:Hset.
    + destruct (quorum_iteration_configured quorum st w Hset)
        as [latencies [w4 [w' [files Hit]]]].
      cbv zeta in Hit. rewrite Hit.
      match goal with
      | |- context [configured_quorums _ _ rest ?s ?x] =>
          destruct (IH s x) as [outcomes [Hlen Hconf]]
      end.
      exists (true :: outcomes). split; [simpl; now rewrite Hlen |].
      simpl. now rewrite Hconf.
    + rewrite (quorum_iteration_skipped quorum st w Hset).
      destruct (IH st (snd (set_quorum env cfg quorum w)))
        as [outcomes [Hlen Hconf]].
      exists (false :: outcomes). split; [simpl; now rewrite Hlen |].
      simpl. exact Hconf.
Qed.

End Sweep.

Lemma kept_among {A : Type} (l : list A) :
  forall (flags : list bool) (x : A),
    In x (map fst (filter snd (combine l flags))) -> In x l.
Proof.
  induction l as [| y rest IH]; intros flags x Hin; [destruct Hin |].
  destruct flags as [| [|] flags']; simpl in Hin.
  - destruct Hin.
  - destruct Hin as [-> | Hin]; [now left | right; now apply (IH flags')].
  - right. now apply (IH flags').
Qed.

Lemma kept_distinct {A : Type} (l : list A) :
  NoDup l -> forall flags : list bool,
    NoDup (map fst (filter snd (combine l flags))).
Proof.
  induction 1 as [| y rest Hy Hrest IH]; intros flags; [constructor |].
  destruct flags as [| [|] flags']; simpl.
  - constructor.
  - constructor; [| apply IH].
    intros Hin. apply Hy. now apply (kept_among rest flags').
  - apply IH.
Qed.

(** C5: the sweep takes the quorum values in list order; a value whose
    set_quorum call fails leaves the records untouched and the sweep goes on
    with the next value, so that the reports are those of the values that
    were set, in order, and statistics exist for such values only. Over
    [1,2,3] with set_quorum(2) failing the records are those of 1 and 3. *)
Theorem failed_quorum_is_skipped (env : environment) (cfg : config)
    (quorums : list Z) (w : world env) :
  (0 < CONCURRENT_WRITES cfg)%Z ->
  exists (st : sweep_state) (outcomes : list bool),
    fst (sweep env cfg quorums initial_state w) = Returned st
    /\ List.length outcomes = List.length quorums
    /\ configured_quorums env cfg quorums initial_state w
       = map fst (filter snd (combine quorums outcomes))
    /\ dict_keys (all_consistency st)
       = keys_after [] (configured_quorums env cfg quorums initial_state w)
    /\ (NoDup quorums ->
        dict_keys (all_consistency st)
        = configured_quorums env cfg quorums initial_state w)
    /\ Forall (fun q => In q (configured_quorums env cfg quorums initial_state w))
              (dict_keys (all_stats st))
    /\ (forall (quorum : Z) (st0 : sweep_state) (w0 : world env),
          fst (set_quorum env cfg quorum w0) = false ->
          quorum_iteration env cfg quorum st0 w0
          = (Returned st0, snd (set_quorum env cfg quorum w0))).
Proof.
  intros Hc.
  destruct (sweep_records env cfg Hc quorums initial_state w (Forall_nil _))
    as [st [Hrun [Hkeys [Hstats _]]]].
  destruct (configured_in_order env cfg Hc quorums initial_state w)
    as [outcomes [Hlen Hconf]].
  exists st, outcomes.
  split; [exact Hrun |]. split; [exact Hlen |]. split; [exact Hconf |].
  split; [exact Hkeys |].
  split; [| split].
  - intros Hnd. rewrite Hkeys. apply keys_after_distinct.
    cbn [app]. rewrite Hconf. now apply kept_distinct.
  - eapply Forall_impl; [| exact Hstats]. intros q [[] | Hq]. exact Hq.
  - intros quorum st0 w0. apply quorum_iteration_skipped.
Qed.

Lemma failed_quorum_is_skipped_witness :
  exists st : sweep_state,
    fst (sweep sim_env small_config [1; 2; 3]%Z initial_state rejecting_world)
    = Returned st
    /\ dict_keys (all_consistency st) = [1; 3]%Z
    /\ dict_keys (all_stats st) = [1; 3]%Z.
Proof.
  destruct (failed_quorum_is_skipped sim_env small_config [1; 2; 3]%Z
              rejecting_world eq_refl)
    as [st [outcomes [Hrun [_ [_ [Hkeys [_ [Hstats _]]]]]]]].
  exists st. split; [exact Hrun |].
  split; [rewrite Hkeys; reflexivity |].
  vm_compute in Hrun. injection Hrun as <-. reflexivity.
Defined.

(** * Further properties of the harness *)

(** ** write_key and the samples of a batch *)

(** X1: write_key issues one request; it returns the elapsed time, which is
    not negative, exactly when the write is answered with 201, and the
    sentinel -1 in every other case, so a sample is never mistaken for a
    failure. *)
Theorem write_key_sentinel (env : environment) (cfg : config)
    (key val : string) (w : world env) :
  let answer :=
    requests_post env (LEADER_URL cfg ++ "/write") (WritePayload key val) w in
  ((0 <= fst (write_key env cfg key val w))%Q <-> created (fst answer) = true)
  /\ (created (fst answer) = true ->
      fst (write_key env cfg key val w)
      = (perf_counter env (snd answer) - perf_counter env w)%Q)
  /\ (created (fst answer) = false ->
      fst (write_key env cfg key val w) = (-1)%Q)
  /\ snd (write_key env cfg key val w) = snd answer.
Proof.
  cbv zeta.
  pose proof (write_key_sample env cfg (key, val) w) as Hkey.
  pose proof (post_write_elapsed env cfg (key, val) w) as Helapsed.
  cbn [fst snd] in Hkey. rewrite Hkey.
  unfold sample_of, post_write in *. cbn [fst snd] in *.
  destruct (created (fst (requests_post env _ _ w))).
  - split; [split; [reflexivity | intros _; exact Helapsed] |].
    split; [reflexivity |]. split; [discriminate | reflexivity].
  - split; [split; [| discriminate] |].
    + intros Hneg. exfalso. revert Hneg. now unfold Qle.
    + split; [discriminate |]. split; reflexivity.
Qed.

(** X2: the samples a batch returns are never negative, and there are at
    most as many as tasks, that is keys times writes per key. *)
Theorem batch_samples_bounded (env : environment) (cfg : config)
    (keys : list string) (num_writes_per_key concurrency : Z) (w : world env) :
  (0 < concurrency)%Z ->
  exists latencies : list Q,
    fst (run_concurrent_writes env cfg keys num_writes_per_key concurrency w)
    = Returned latencies
    /\ Forall (fun latency => (0 <= latency)%Q) latencies
    /\ List.length latencies
       <= Z.to_nat num_writes_per_key * List.length keys.
Proof.
  intros Hc. eexists.
  split; [now apply run_concurrent_writes_trace |].
  split.
  - apply Forall_map.
    apply Forall_forall. intros x Hx. apply filter_In in Hx.
    destruct Hx as [Hx _]. revert x Hx. apply Forall_forall.
    unfold write_trace.
    destruct (build_tasks env (range num_writes_per_key) keys w) as [tasks w1].
    apply pool_run_Forall. intros task w'. apply post_write_elapsed.
  - rewrite length_map, <- batch_tasks_length with (env := env) (w := w).
    rewrite <- (write_trace_length env cfg keys num_writes_per_key concurrency w Hc).
    apply filter_length_le.
Qed.

Lemma batch_samples_bounded_witness :
  exists latencies : list Q,
    fst (run_concurrent_writes sim_env small_config ["key_0"; "key_1"] 2 2
           flaky_world) = Returned latencies
    /\ Forall (fun latency => (0 <= latency)%Q) latencies
    /\ List.length latencies <= 4.
Proof.
  exact (batch_samples_bounded sim_env small_config ["key_0"; "key_1"] 2 2
           flaky_world eq_refl).
Defined.

(** ** The entries of check_consistency *)

(** X3: an entry lists at most three examples of mismatched keys: the first
    three in the leader's order, or all of them when there are fewer. *)
Theorem mismatched_examples_bounded (env : environment) (cfg : config)
    (keys : option (list string)) (w : world env) :
  Forall (fun e =>
            List.length (mismatched_examples e) = Nat.min 3 (mismatched_values e))
         (followers (fst (check_consistency env cfg keys w)))
  /\ forall (i : nat) (leader_data follower_data : dict value),
       mismatched_examples (make_entry i leader_data follower_data)
       = firstn 3 (map fst (filter (in_mismatched follower_data) leader_data)).
Proof.
  split.
  - rewrite check_consistency_report. cbn [followers].
    apply check_followers_Forall. intros i follower_data.
    unfold make_entry. rewrite classify_buckets.
    cbn [mismatched_examples mismatched_values]. apply length_firstn.
  - intros i leader_data follower_data.
    unfold make_entry. now rewrite classify_buckets.
Qed.

(** ** Facts about dicts *)

Section DictFacts.
Context {K V : Type}.
Variable eqb : K -> K -> bool.
Hypothesis eqb_eq : forall x y : K, eqb x y = true <-> x = y.

Lemma eqb_refl (k : K) : eqb k k = true.
Proof. now apply eqb_eq. Qed.

Lemma eqb_neq (k k' : K) : k <> k' -> eqb k k' = false.
Proof.
  intros Hne. destruct (eqb k k') eqn:H; [| reflexivity].
  apply eqb_eq in H. contradiction.
Qed.

Lemma dict_get_set_same (k : K) (v : V) (d : list (K * V)) :
  dict_get eqb k (dict_set eqb k v d) = Some v.
Proof.
  induction d as [| [k' v'] rest IH]; simpl.
  - now rewrite eqb_refl.
  - destruct (eqb k k') eqn:Hk; simpl; rewrite Hk; [reflexivity | exact IH].
Qed.

Lemma dict_get_set_other (k k' : K) (v : V) (d : list (K * V)) :
  k <> k' -> dict_get eqb k' (dict_set eqb k v d) = dict_get eqb k' d.
Proof.
  intros Hne. induction d as [| [k0 v0] rest IH]; simpl.
  - rewrite eqb_neq; [reflexivity | congruence].
  - destruct (eqb k k0) eqn:Hk; simpl.
    + apply eqb_eq in Hk. subst k0. rewrite eqb_neq; [reflexivity | congruence].
    + now rewrite IH.
Qed.

Lemma dict_get_some_key (k : K) (v : V) (d : list (K * V)) :
  dict_get eqb k d = Some v -> In k (dict_keys d).
Proof.
  induction d as [| [k' v'] rest IH]; simpl; [discriminate |].
  destruct (eqb k k') eqn:Hk.
  - apply eqb_eq in Hk. now left.
  - intros H. right. now apply IH.
Qed.

Lemma dict_get_none_key (k : K) (d : list (K * V)) :
  dict_get eqb k d = None -> ~ In k (dict_keys d).
Proof.
  induction d as [| [k' v'] rest IH]; simpl; [tauto |].
  destruct (eqb k k') eqn:Hk; [discriminate |].
  intros H [Heq | Hin]; [| now apply IH].
  subst k'. now rewrite eqb_refl in Hk.
Qed.

Lemma existsb_eqb_In (k : K) (l : list K) :
  existsb (eqb k) l = true <-> In k l.
Proof.
  rewrite existsb_exists. split.
  - intros [k' [Hin Hk]]. apply eqb_eq in Hk. now subst.
  - intros Hin. exists k. split; [exact Hin | apply eqb_refl].
Qed.

Lemma dict_set_distinct (k : K) (v : V) (d : list (K * V)) :
  NoDup (dict_keys d) -> NoDup (dict_keys (dict_set eqb k v d)).
Proof.
  intros Hnd. rewrite dict_set_keys.
  destruct (existsb (eqb k) (dict_keys d)) eqn:Hk; [exact Hnd |].
  apply NoDup_app; [exact Hnd | repeat constructor; tauto |].
  intros x Hx [<- | []].
  apply existsb_eqb_In in Hx. congruence.
Qed.

Lemma dict_of_items_distinct (items : list (K * V)) :
  NoDup (dict_keys (dict_of_items eqb items)).
Proof.
  unfold dict_of_items.
  assert (Hgen : forall d, NoDup (dict_keys d) ->
            NoDup (dict_keys
                     (fold_left (fun d kv => dict_set eqb (fst kv) (snd kv) d)
                                items d))).
  { induction items as [| kv rest IH]; intros d Hd; [exact Hd |].
    simpl. apply IH. now apply dict_set_distinct. }
  apply Hgen. constructor.
Qed.

End DictFacts.

Lemma filter_keys_distinct {V : Type} (f : string * V -> bool) (d : dict V) :
  NoDup (dict_keys d) -> NoDup (dict_keys (filter f d)).
Proof.
  unfold dict_keys.
  induction d as [| kv rest IH]; simpl; intros Hnd; [constructor |].
  apply NoDup_cons_iff in Hnd. destruct Hnd as [Hnot Hrest].
  destruct (f kv); simpl; [| now apply IH].
  constructor; [| now apply IH].
  intros Hin. apply Hnot. apply in_map_iff in Hin.
  destruct Hin as [kv' [Hfst Hin]]. apply filter_In in Hin.
  apply in_map_iff. exists kv'. tauto.
Qed.

Lemma get_json_distinct (env : environment) (full_url : string) (w : world env) :
  NoDup (dict_keys (fst (get_json env full_url w))).
Proof.
  unfold get_json.
  destruct (requests_get env full_url w) as [[status_code b |] w'];
    [| constructor].
  destruct (Z.eqb status_code 200); [| constructor].
  destruct b as [members |]; [| constructor].
  apply dict_of_items_distinct. apply String.eqb_eq.
Qed.

Lemma checked_leader_data_distinct (env : environment) (cfg : config)
    (keys : option (list string)) (w : world env) :
  NoDup (dict_keys (checked_leader_data env cfg keys w)).
Proof.
  unfold checked_leader_data, restrict, get_all_data.
  pose proof (get_json_distinct env (LEADER_URL cfg ++ "/dump") w) as Hnd.
  destruct keys as [ks |]; [| exact Hnd].
  destruct (truthy (Some ks)); [| exact Hnd].
  now apply filter_keys_distinct.
Qed.

Lemma found_count (follower_data leader_data : dict value) :
  List.length (filter (in_matching follower_data) leader_data)
  + List.length (filter (in_mismatched follower_data) leader_data)
  = List.length (filter (fun kv => negb (in_missing follower_data kv)) leader_data).
Proof.
  induction leader_data as [| kv rest IH]; [reflexivity |].
  cbn [filter]. unfold in_matching at 1, in_mismatched at 1, in_missing at 1.
  destruct (dict_get String.eqb (fst kv) follower_data) as [fv |]; cbn [negb].
  - destruct (value_eqb (snd kv) fv); cbn [negb List.length]; lia.
  - exact IH.
Qed.

Lemma found_within_follower (follower_data leader_data : dict value) :
  NoDup (dict_keys leader_data) ->
  List.length (filter (fun kv => negb (in_missing follower_data kv)) leader_data)
  <= List.length follower_data.
Proof.
  intros Hnd.
  rewrite <- (length_map fst (filter _ leader_data)).
  rewrite <- (length_map fst follower_data).
  apply NoDup_incl_length.
  - now apply (filter_keys_distinct _ leader_data).
  - intros k Hk. apply in_map_iff in Hk. destruct Hk as [kv [<- Hin]].
    apply filter_In in Hin. destruct Hin as [_ Hfound].
    unfold in_missing in Hfound.
    destruct (dict_get String.eqb (fst kv) follower_data) as [fv |] eqn:Hget;
      [| discriminate].
    apply (dict_get_some_key String.eqb String.eqb_eq) in Hget. exact Hget.
Qed.

(** X4: in every entry of a report the keys found on the follower, matching
    or mismatched, are at most the keys the follower holds, and the leader's
    key count is at most the size of the leader's dump. *)
Theorem entry_counts_within_follower (env : environment) (cfg : config)
    (only : option (list string)) (w : world env) :
  Forall (fun e => matching_count e + mismatched_values e <= keys e)
         (followers (fst (check_consistency env cfg only w)))
  /\ leader_keys (fst (check_consistency env cfg only w))
     <= List.length (fst (get_all_data env (LEADER_URL cfg) w)).
Proof.
  rewrite check_consistency_report. cbn [followers leader_keys]. split.
  - apply check_followers_Forall. intros i follower_data.
    unfold make_entry. rewrite classify_buckets.
    cbn [matching_count mismatched_values]. rewrite length_map, found_count.
    apply found_within_follower, checked_leader_data_distinct.
  - unfold checked_leader_data, restrict.
    destruct only as [ks |]; [| lia].
    destruct (truthy (Some ks)); [apply filter_length_le | lia].
Qed.

(** ** Bounds of the statistics *)

Lemma Qsum_shift (l : list Q) (a : Q) :
  (fold_left Qplus l a == a + Qsum l)%Q.
Proof.
  unfold Qsum. revert a. induction l as [| x rest IH]; intros a; simpl.
  - ring.
  - rewrite (IH (a + x)%Q), (IH (0 + x)%Q). ring.
Qed.

Lemma Qsum_cons (x : Q) (l : list Q) : (Qsum (x :: l) == x + Qsum l)%Q.
Proof.
  unfold Qsum at 1. simpl. rewrite Qsum_shift. ring.
Qed.

Lemma Qlen_cons (x : Q) (l : list Q) : (Qlen (x :: l) == 1 + Qlen l)%Q.
Proof.
  unfold Qlen. cbn [List.length]. rewrite Nat2Z.inj_succ.
  unfold Z.succ. rewrite inject_Z_plus. ring.
Qed.

Lemma Qsum_lower (a : Q) (l : list Q) :
  Forall (fun y => (a <= y)%Q) l -> (a * Qlen l <= Qsum l)%Q.
Proof.
  induction 1 as [| x rest Hx Hrest IH].
  - unfold Qlen, Qsum. simpl. rewrite Qmult_0_r. apply Qle_refl.
  - rewrite Qsum_cons, Qlen_cons.
    setoid_replace (a * (1 + Qlen rest))%Q with (a + a * Qlen rest)%Q by ring.
    now apply Qplus_le_compat.
Qed.

Lemma Qsum_upper (b : Q) (l : list Q) :
  Forall (fun y => (y <= b)%Q) l -> (Qsum l <= b * Qlen l)%Q.
Proof.
  induction 1 as [| x rest Hx Hrest IH].
  - unfold Qlen, Qsum. simpl. rewrite Qmult_0_r. apply Qle_refl.
  - rewrite Qsum_cons, Qlen_cons.
    setoid_replace (b * (1 + Qlen rest))%Q with (b + b * Qlen rest)%Q by ring.
    now apply Qplus_le_compat.
Qed.

Lemma Qlen_positive (x : Q) (rest : list Q) : (0 < Qlen (x :: rest))%Q.
Proof.
  unfold Qlen, Qlt, inject_Z. cbn [Qnum Qden List.length]. lia.
Qed.

Lemma nth_sorted_between (samples : list Q) (lo hi : Q) (k : nat) :
  Forall (fun y => (lo <= y)%Q) samples ->
  Forall (fun y => (y <= hi)%Q) samples ->
  k < List.length samples ->
  (lo <= nth k (sorted samples) 0)%Q /\ (nth k (sorted samples) 0 <= hi)%Q.
Proof.
  intros Hlo Hhi Hk.
  assert (Hin : In (nth k (sorted samples) 0%Q) samples).
  { apply (Permutation_in _ (sorted_perm samples)).
    apply nth_In. now rewrite (Permutation_length (sorted_perm samples)). }
  rewrite Forall_forall in Hlo, Hhi. split; auto.
Qed.

(** ** The statistics do not depend on the order of the samples *)











(** ** save_stores *)

Lemma ascii_compare_refl (c : ascii) : Ascii.compare c c = Eq.
Proof. unfold Ascii.compare. apply N.compare_refl. Qed.

Lemma string_leb_trans (s1 : string) :
  forall s2 s3 : string,
    String.leb s1 s2 = true -> String.leb s2 s3 = true -> String.leb s1 s3 = true.
Proof.
  unfold String.leb.
  induction s1 as [| c1 s1' IH]; intros [| c2 s2'] [| c3 s3']; simpl;
    try easy.
  destruct (Ascii.compare c1 c2) eqn:H12; try easy;
    destruct (Ascii.compare c2 c3) eqn:H23; try easy.
  - apply Ascii.compare_eq_iff in H12, H23. subst c2 c3.
    rewrite ascii_compare_refl. apply IH.
  - apply Ascii.compare_eq_iff in H12. subst c2. now rewrite H23.
  - apply Ascii.compare_eq_iff in H23. subst c3. now rewrite H12.
  - unfold Ascii.compare in *. rewrite N.compare_lt_iff in H12, H23.
    replace (N_of_ascii c1 ?= N_of_ascii c3)%N with Lt; [easy |].
    symmetry. apply N.compare_lt_iff. lia.
Qed.

Lemma insert_key_perm (k : string) (l : list string) :
  Permutation (insert_key k l) (k :: l).
Proof.
  induction l as [| k' rest IH]; simpl; [reflexivity |].
  destruct (String.leb k k'); [reflexivity |].
  rewrite IH. apply perm_swap.
Qed.

Lemma sorted_keys_perm (keys : list string) : Permutation (sorted_keys keys) keys.
Proof.
  induction keys as [| k rest IH]; simpl; [reflexivity |].
  rewrite insert_key_perm. now constructor.
Qed.

Lemma insert_key_ordered (k : string) (l : list string) :
  Sorted key_le l -> Sorted key_le (insert_key k l).
Proof.
  induction 1 as [| k' rest Hrest IH Hhd]; simpl.
  - repeat constructor.
  - destruct (String.leb k k') eqn:Hk.
    + constructor; [now constructor | now constructor].
    + constructor; [exact IH |].
      assert (Hk' : key_le k' k).
      { destruct (String.leb_total k k') as [H | H]; [congruence | exact H]. }
      destruct rest as [| k'' rest']; simpl.
      * now constructor.
      * destruct (String.leb k k''); constructor; [exact Hk' |].
        now apply HdRel_inv in Hhd.
Qed.

Lemma sorted_keys_ordered (keys : list string) :
  StronglySorted key_le (sorted_keys keys).
Proof.
  apply Sorted_StronglySorted.
  - intros a b c. apply string_leb_trans.
  - induction keys as [| k rest IH]; simpl; [constructor |].
    now apply insert_key_ordered.
Qed.

Lemma list_mem_iff (k : string) (l : list string) : list_mem k l = true <-> In k l.
Proof. apply (existsb_eqb_In String.eqb String.eqb_eq). Qed.

Lemma list_mem_perm (k : string) (l l' : list string) :
  Permutation l l' -> list_mem k l = list_mem k l'.
Proof.
  intros Hperm. apply eq_true_iff_eq. rewrite !list_mem_iff.
  split; apply Permutation_in; [exact Hperm | now symmetry].
Qed.

Section FilterVersions.
Variable versions : dict value.

Let step (d : dict value) (k : string) : dict value :=
  match dict_get String.eqb k versions with
  | Some v => dict_set String.eqb k v d
  | None => d
  end.

Lemma filter_fold_lookup (l : list string) :
  forall (d : dict value) (k : string),
    dict_get String.eqb k (fold_left step l d) =
    match (if list_mem k l then dict_get String.eqb k versions else None) with
    | Some v => Some v
    | None => dict_get String.eqb k d
    end.
Proof.
  induction l as [| a rest IH]; intros d k; [reflexivity |].
  cbn [fold_left]. rewrite IH. unfold list_mem. cbn [existsb].
  fold (list_mem k rest).
  destruct (String.eqb k a) eqn:Hka; cbn [orb].
  - apply String.eqb_eq in Hka. subst a. unfold step.
    destruct (dict_get String.eqb k versions) as [v |] eqn:Hv.
    + rewrite (dict_get_set_same String.eqb String.eqb_eq).
      now destruct (list_mem k rest).
    + now destruct (list_mem k rest).
  - assert (Hstep : dict_get String.eqb k (step d a) = dict_get String.eqb k d).
    { unfold step. destruct (dict_get String.eqb a versions) as [v |];
        [| reflexivity].
      apply (dict_get_set_other String.eqb String.eqb_eq).
      intros ->. now rewrite String.eqb_refl in Hka. }
    now rewrite Hstep.
Qed.

Lemma strictly_sorted_snoc (l : list string) (a : string) :
  StronglySorted key_lt l -> Forall (fun k => key_lt k a) l ->
  StronglySorted key_lt (l ++ [a]).
Proof.
  induction 1 as [| k rest Hrest IH Hk]; intros Hall; simpl.
  - repeat constructor.
  - apply Forall_cons_iff in Hall. destruct Hall as [Hka Hall].
    constructor; [now apply IH |].
    apply Forall_app. split; [exact Hk | now constructor].
Qed.

Lemma filter_fold_sorted (l : list string) :
  forall d : dict value,
    StronglySorted key_le l ->
    StronglySorted key_lt (dict_keys d) ->
    Forall (fun a => Forall (fun k => key_le k a) (dict_keys d)) l ->
    StronglySorted key_lt (dict_keys (fold_left step l d)).
Proof.
  induction l as [| a rest IH]; intros d Hl Hd Hbelow; [exact Hd |].
  cbn [fold_left].
  apply StronglySorted_inv in Hl. destruct Hl as [Hrest Ha].
  apply Forall_cons_iff in Hbelow. destruct Hbelow as [Hda Hbelow].
  assert (Hkeys : dict_keys (step d a) = dict_keys d
                  \/ (dict_keys (step d a) = dict_keys d ++ [a])%list
                     /\ ~ In a (dict_keys d)).
  { unfold step. destruct (dict_get String.eqb a versions) as [v |];
      [| now left].
    rewrite dict_set_keys.
    destruct (existsb (String.eqb a) (dict_keys d)) eqn:Hmem; [now left |].
    right. split; [reflexivity |].
    intros Hin. apply (existsb_eqb_In String.eqb String.eqb_eq) in Hin.
    congruence. }
  apply IH; [exact Hrest | |].
  - destruct Hkeys as [-> | [-> Hnew]]; [exact Hd |].
    apply strictly_sorted_snoc; [exact Hd |].
    apply Forall_forall. intros k Hk. split.
    + rewrite Forall_forall in Hda. now apply Hda.
    + intros ->. contradiction.
  - apply Forall_forall. intros b Hb.
    rewrite Forall_forall in Hbelow, Ha.
    destruct Hkeys as [-> | [-> Hnew]]; [now apply Hbelow |].
    apply Forall_app. split; [now apply Hbelow |].
    constructor; [now apply Ha | constructor].
Qed.

End FilterVersions.

Lemma strictly_sorted_distinct (l : list string) :
  StronglySorted key_lt l -> NoDup l.
Proof.
  induction 1 as [| k rest Hrest IH Hk]; constructor; [| exact IH].
  intros Hin. rewrite Forall_forall in Hk. now destruct (Hk k Hin).
Qed.

Lemma filter_versions_lookup (keys : list string) (versions : dict value)
    (k : string) :
  dict_get String.eqb k (filter_versions keys versions)
  = if list_mem k keys then dict_get String.eqb k versions else None.
Proof.
  unfold filter_versions. rewrite filter_fold_lookup.
  rewrite (list_mem_perm k _ _ (sorted_keys_perm keys)). cbn [dict_get].
  destruct (list_mem k keys); [| reflexivity].
  now destruct (dict_get String.eqb k versions).
Qed.

Lemma filter_versions_sorted (keys : list string) (versions : dict value) :
  StronglySorted key_lt (dict_keys (filter_versions keys versions)).
Proof.
  unfold filter_versions. apply filter_fold_sorted.
  - apply sorted_keys_ordered.
  - constructor.
  - apply Forall_forall. intros a _. constructor.
Qed.

(** X7: the store that save_stores writes for a node binds exactly the
    requested keys that the node's version dump holds, each to its dumped
    version, and lists them in strictly ascending order, whatever the order
    and the repetitions of the requested keys. *)
Theorem saved_store_is_sorted_restriction (keys : list string)
    (versions : dict value) :
  (forall k : string,
     dict_get String.eqb k (filter_versions keys versions)
     = if list_mem k keys then dict_get String.eqb k versions else None)
  /\ StronglySorted key_lt (dict_keys (filter_versions keys versions))
  /\ NoDup (dict_keys (filter_versions keys versions)).
Proof.
  split; [apply filter_versions_lookup |].
  split; [apply filter_versions_sorted |].
  apply strictly_sorted_distinct, filter_versions_sorted.
Qed.

Lemma append_cancel_l (a b c : string) : a ++ b = a ++ c -> b = c.
Proof.
  induction a as [| x a' IH]; simpl; [easy |].
  intros H. injection H as H. now apply IH.
Qed.

Lemma length_append (a b : string) :
  String.length (a ++ b) = String.length a + String.length b.
Proof.
  induction a as [| x a' IH]; simpl; [reflexivity | now rewrite IH].
Qed.

Lemma append_cancel_r (a : string) :
  forall b c : string, a ++ c = b ++ c -> a = b.
Proof.
  induction a as [| x a' IH]; intros [| y b'] c H; simpl in H.
  - reflexivity.
  - apply (f_equal String.length) in H. simpl in H.
    rewrite length_append in H. lia.
  - apply (f_equal String.length) in H. simpl in H.
    rewrite length_append in H. lia.
  - injection H as -> H. f_equal. now apply (IH b' c).
Qed.

Section SavedFiles.
Variable env : environment.
Variable quorum_dir : string.
Variable keys : list string.

Lemma save_follower_stores_paths (urls : list string) (i : nat) (w : world env) :
  map fst (fst (save_follower_stores env quorum_dir keys i urls w))
  = map (fun n => path_join quorum_dir ("f" ++ string_of_nat n ++ "_store.json"))
        (seq i (List.length urls)).
Proof.
  revert i w. induction urls as [| url rest IH]; intros i w; simpl; [reflexivity |].
  destruct (get_all_versions env url w) as [follower_versions w1].
  specialize (IH (S i) w1).
  destruct (save_follower_stores env quorum_dir keys (S i) rest w1) as [files w2].
  simpl in *. now rewrite IH.
Qed.

Lemma save_follower_stores_Forall (P : dict value -> Prop) :
  (forall versions, P (filter_versions keys versions)) ->
  forall urls i w,
    Forall (fun file => P (snd file))
           (fst (save_follower_stores env quorum_dir keys i urls w)).
Proof.
  intros HP urls. induction urls as [| url rest IH]; intros i w; simpl.
  - constructor.
  - destruct (get_all_versions env url w) as [follower_versions w1].
    specialize (IH (S i) w1).
    destruct (save_follower_stores env quorum_dir keys (S i) rest w1)
      as [files w2].
    simpl in *. constructor; [apply HP | exact IH].
Qed.

End SavedFiles.

(** The separator that path_join puts after its first part. *)
Lemma path_join_relative (a b : string) :
  starts_with_sep b = false ->
  path_join a b
  = a ++ (if String.eqb a "" || ends_with_sep a then "" else "/") ++ b.
Proof.
  intros Hb. unfold path_join. rewrite Hb.
  now destruct (String.eqb a "" || ends_with_sep a).
Qed.

(** X8: save_stores writes one store for the leader and one per follower
    url, all in the directory os.path.join(results_dir, "q<quorum>"), named
    leader_store.json and f1_store.json, f2_store.json, ... in the order of
    the configuration; the paths are distinct and every store lists
    requested keys only, in strictly ascending order. With the results
    directory of run_analysis the directory is results/q<quorum>; an empty
    results directory or one ending with a slash gets no second slash. *)
Theorem save_stores_files (env : environment) (cfg : config) (quorum : Z)
    (keys : list string) (results_dir : string) (w : world env) :
  let quorum_dir := path_join results_dir ("q" ++ string_of_Z quorum) in
  let files := fst (save_stores env cfg quorum keys results_dir w) in
  map fst files
  = path_join quorum_dir "leader_store.json"
    :: map (fun n => path_join quorum_dir ("f" ++ string_of_nat n ++ "_store.json"))
           (seq 1 (List.length (FOLLOWER_URLS cfg)))
  /\ NoDup (map fst files)
  /\ Forall (fun file =>
               StronglySorted key_lt (dict_keys (snd file))
               /\ Forall (fun k => In k keys) (dict_keys (snd file)))
            files
  /\ path_join "results" ("q" ++ string_of_Z quorum)
     = "results/q" ++ string_of_Z quorum
  /\ path_join "" ("q" ++ string_of_Z quorum) = "q" ++ string_of_Z quorum
  /\ path_join "out/" ("q" ++ string_of_Z quorum) = "out/q" ++ string_of_Z quorum
  /\ path_join "results/q1" "leader_store.json" = "results/q1/leader_store.json".
Proof.
  cbv zeta. unfold save_stores.
  set (quorum_dir := path_join results_dir ("q" ++ string_of_Z quorum)).
  destruct (get_all_versions env (LEADER_URL cfg) w) as [leader_versions w1].
  pose proof (save_follower_stores_paths env quorum_dir keys (FOLLOWER_URLS cfg) 1 w1)
    as Hpaths.
  assert (Hstore : forall versions,
            StronglySorted key_lt (dict_keys (filter_versions keys versions))
            /\ Forall (fun k => In k keys)
                      (dict_keys (filter_versions keys versions))).
  { intros versions. split; [apply filter_versions_sorted |].
    apply Forall_forall. intros k Hk. unfold dict_keys in Hk.
    apply in_map_iff in Hk. destruct Hk as [[k' v] [<- Hin]]. cbn [fst].
    destruct (dict_get String.eqb k' (filter_versions keys versions)) as [v' |]
      eqn:Hget.
    - rewrite filter_versions_lookup in Hget.
      destruct (list_mem k' keys) eqn:Hmem; [| discriminate].
      now apply list_mem_iff.
    - apply (dict_get_none_key String.eqb String.eqb_eq) in Hget.
      exfalso. apply Hget. unfold dict_keys. apply in_map_iff.
      now exists (k', v). }
  pose proof (save_follower_stores_Forall env quorum_dir keys
                (fun store => StronglySorted key_lt (dict_keys store)
                              /\ Forall (fun k => In k keys) (dict_keys store))
                Hstore (FOLLOWER_URLS cfg) 1 w1) as Hall.
  destruct (save_follower_stores env quorum_dir keys 1 (FOLLOWER_URLS cfg) w1)
    as [files w2].
  cbn [fst snd map] in *. rewrite Hpaths.
  split; [reflexivity |].
  split; [| split; [constructor; [apply Hstore | exact Hall] | now repeat split]].
  constructor.
  - intros Hin. apply in_map_iff in Hin. destruct Hin as [n [Hn _]].
    rewrite !path_join_relative in Hn by reflexivity.
    apply append_cancel_l, append_cancel_l in Hn. discriminate.
  - apply Injective_map_NoDup; [| apply seq_NoDup].
    intros m n H. rewrite !path_join_relative in H by reflexivity.
    apply append_cancel_l, append_cancel_l in H.
    apply (append_cancel_l "f") in H. apply append_cancel_r in H.
    now apply string_of_nat_inj.
Qed.

(** ** The requests the harness makes *)

Section Requests.
Variable env : environment.
Variable cfg : config.

Lemma traced_get_json (full_url : string) (w : world env) (log : list request) :
  get_json (traced env) full_url (w, log)
  = (fst (get_json env full_url w),
     (snd (get_json env full_url w), (log ++ [Get full_url])%list)).
Proof.
  unfold get_json. cbn [requests_get traced traced_get fst snd].
  destruct (requests_get env full_url w) as [[status_code b |] w'];
    cbn [fst snd]; [| reflexivity].
  destruct (Z.eqb status_code 200); [| reflexivity].
  now destruct b.
Qed.

Lemma traced_check_followers (leader_data : dict value) (urls : list string) :
  forall (i : nat) (w : world env) (log : list request),
    check_followers (traced env) leader_data i urls (w, log)
    = (fst (check_followers env leader_data i urls w),
       (snd (check_followers env leader_data i urls w),
        (log ++ map (fun url => Get (url ++ "/dump")) urls)%list)).
Proof.
  induction urls as [| url rest IH]; intros i w log; cbn [check_followers map].
  - now rewrite app_nil_r.
  - unfold get_all_data. rewrite traced_get_json.
    destruct (get_json env (url ++ "/dump") w) as [follower_data w1].
    cbn [fst snd]. rewrite IH.
    destruct (check_followers env leader_data (S i) rest w1) as [entries w2].
    cbn [fst snd]. now rewrite <- app_assoc.
Qed.

Lemma traced_save_follower_stores (quorum_dir : string) (keys : list string)
    (urls : list string) :
  forall (i : nat) (w : world env) (log : list request),
    save_follower_stores (traced env) quorum_dir keys i urls (w, log)
    = (fst (save_follower_stores env quorum_dir keys i urls w),
       (snd (save_follower_stores env quorum_dir keys i urls w),
        (log ++ map (fun url => Get (url ++ "/dump-versions")) urls)%list)).
Proof.
  induction urls as [| url rest IH]; intros i w log;
    cbn [save_follower_stores map].
  - now rewrite app_nil_r.
  - unfold get_all_versions. rewrite traced_get_json.
    destruct (get_json env (url ++ "/dump-versions") w) as [versions w1].
    cbn [fst snd]. rewrite IH.
    destruct (save_follower_stores env quorum_dir keys (S i) rest w1)
      as [files w2].
    cbn [fst snd]. now rewrite <- app_assoc.
Qed.

(** X9: check_consistency asks the leader for its dump and then each
    follower for its dump, in the order of the configuration, and makes no
    other request; save_stores does the same with the version dumps.
    Recording the requests changes neither the result nor the store. *)
Theorem consistency_check_only_reads (keys : option (list string))
    (quorum : Z) (ks : list string) (results_dir : string)
    (w : world env) (log : list request) :
  check_consistency (traced env) cfg keys (w, log)
  = (fst (check_consistency env cfg keys w),
     (snd (check_consistency env cfg keys w),
      (log ++ Get (LEADER_URL cfg ++ "/dump")
           :: map (fun url => Get (url ++ "/dump")) (FOLLOWER_URLS cfg))%list))
  /\ save_stores (traced env) cfg quorum ks results_dir (w, log)
     = (fst (save_stores env cfg quorum ks results_dir w),
        (snd (save_stores env cfg quorum ks results_dir w),
         (log ++ Get (LEADER_URL cfg ++ "/dump-versions")
              :: map (fun url => Get (url ++ "/dump-versions"))
                     (FOLLOWER_URLS cfg))%list)).
Proof.
  split.
  - unfold check_consistency, get_all_data. rewrite traced_get_json.
    destruct (get_json env (LEADER_URL cfg ++ "/dump") w) as [leader_dump w1].
    cbn [fst snd]. rewrite traced_check_followers.
    destruct (check_followers env (restrict keys leader_dump) 1
                (FOLLOWER_URLS cfg) w1) as [entries w2].
    cbn [fst snd]. now rewrite <- app_assoc.
  - unfold save_stores, get_all_versions. rewrite traced_get_json.
    destruct (get_json env (LEADER_URL cfg ++ "/dump-versions") w)
      as [leader_versions w1].
    cbn [fst snd]. rewrite traced_save_follower_stores.
    destruct (save_follower_stores env _ ks 1 (FOLLOWER_URLS cfg) w1)
      as [files w2].
    cbn [fst snd]. now rewrite <- app_assoc.
Qed.

Lemma traced_set_quorum (quorum : Z) (w : world env) (log : list request) :
  set_quorum (traced env) cfg quorum (w, log)
  = (fst (set_quorum env cfg quorum w),
     (snd (set_quorum env cfg quorum w),
      (log ++ [Post (LEADER_URL cfg ++ "/config") (ConfigPayload quorum)])%list)).
Proof.
  unfold set_quorum. cbn [requests_post traced traced_post fst snd].
  now destruct (requests_post env _ _ w) as [[status_code b |] w'].
Qed.

(** X10: when set_quorum fails, the iteration for that quorum value makes
    the configuration request and nothing else: no write and no dump. *)
Theorem skipped_quorum_makes_one_request (quorum : Z) (st : sweep_state)
    (w : world env) (log : list request) :
  fst (set_quorum env cfg quorum w) = false ->
  quorum_iteration (traced env) cfg quorum st (w, log)
  = (Returned st,
     (snd (set_quorum env cfg quorum w),
      (log ++ [Post (LEADER_URL cfg ++ "/config") (ConfigPayload quorum)])%list)).
Proof.
  intros Hset. unfold quorum_iteration. rewrite traced_set_quorum.
  now rewrite Hset.
Qed.

End Requests.

Lemma skipped_quorum_makes_one_request_witness :
  snd (snd (quorum_iteration (traced sim_env) small_config 2 initial_state
              (rejecting_world, [])))
  = [Post "http://leader/config" (ConfigPayload 2)].
Proof.
  exact (f_equal (fun x => snd (snd x))
           (skipped_quorum_makes_one_request sim_env small_config 2
              initial_state rejecting_world [] eq_refl)).
Defined.

Section BatchRequests.
Variable env : environment.
Variable cfg : config.

Lemma traced_tasks_for_keys (i : Z) (keys : list string) :
  forall (w : world env) (log : list request),
    tasks_for_keys (traced env) i keys (w, log)
    = (fst (tasks_for_keys env i keys w), (snd (tasks_for_keys env i keys w), log)).
Proof.
  induction keys as [| key rest IH]; intros w log; cbn [tasks_for_keys];
    [reflexivity |].
  cbn [time_time traced fst snd].
  destruct (time_time env w) as [now w1]. cbn [fst snd]. rewrite IH.
  now destruct (tasks_for_keys env i rest w1) as [tasks w2].
Qed.

Lemma traced_build_tasks (iterations : list Z) (keys : list string) :
  forall (w : world env) (log : list request),
    build_tasks (traced env) iterations keys (w, log)
    = (fst (build_tasks env iterations keys w),
       (snd (build_tasks env iterations keys w), log)).
Proof.
  induction iterations as [| i rest IH]; intros w log; cbn [build_tasks];
    [reflexivity |].
  rewrite traced_tasks_for_keys.
  destruct (tasks_for_keys env i keys w) as [tasks w1]. cbn [fst snd].
  rewrite IH. now destruct (build_tasks env rest keys w1) as [more w2].
Qed.

(** The pool posts one write per result, in completion order. *)
Lemma pool_run_log {A : Type} (e : environment)
    (f : string * string -> world e -> A * world e)
    (log_of : world e -> list request) (request_of : A -> request)
    (max_workers : nat) :
  (forall task w,
     log_of (snd (f task w)) = (log_of w ++ [request_of (fst (f task w))])%list) ->
  forall (n : nat) (pending : list (string * string)) (w : world e),
    log_of (snd (pool_run e f max_workers n pending w))
    = (log_of w ++ map request_of (fst (pool_run e f max_workers n pending w)))%list.
Proof.
  intros Hf n. induction n as [| n' IH]; intros pending w; cbn [pool_run].
  - cbn [fst snd map]. now rewrite app_nil_r.
  - destruct (nth_error pending _) as [task |];
      [| cbn [fst snd map]; now rewrite app_nil_r].
    pose proof (Hf task w) as Htask.
    destruct (f task w) as [a w1]. cbn [fst snd] in Htask.
    specialize (IH (remove_nth
      (Nat.modulo (pick e w (Nat.min max_workers (List.length pending)))
                  (Nat.min max_workers (List.length pending))) pending) w1).
    destruct (pool_run e f max_workers n' _ w1) as [rest w2].
    cbn [fst snd map] in *. rewrite IH, Htask. now rewrite <- app_assoc.
Qed.

Lemma traced_pool_log (max_workers n : nat)
    (pending : list (string * string)) (wl : world env * list request) :
  snd (snd (pool_run (traced env) (post_write (traced env) cfg) max_workers n
              pending wl))
  = (snd wl
     ++ map (fun x => write_request cfg (fst (fst x)))
            (fst (pool_run (traced env) (post_write (traced env) cfg)
                    max_workers n pending wl)))%list.
Proof.
  apply (pool_run_log (traced env) (post_write (traced env) cfg)
           (fun wl' : world (traced env) => snd wl')
           (fun x => write_request cfg (fst (fst x)))).
  intros task w. reflexivity.
Qed.

(** X11: a batch posts exactly one write per task it built, each with the
    task's key and value, and makes no other request; with a concurrency
    that is not positive it makes no request at all. *)
Theorem batch_posts_each_task_once (keys : list string)
    (num_writes_per_key concurrency : Z) (w : world env) (log : list request) :
  exists posted : list (string * string),
    snd (snd (run_concurrent_writes (traced env) cfg keys num_writes_per_key
                concurrency (w, log)))
    = (log ++ map (write_request cfg) posted)%list
    /\ if Z.leb concurrency 0 then posted = []
       else Permutation posted (batch_tasks env keys num_writes_per_key w).
Proof.
  unfold run_concurrent_writes, batch_tasks. rewrite traced_build_tasks.
  destruct (build_tasks env (range num_writes_per_key) keys w) as [tasks w1].
  cbn [fst snd].
  destruct (Z.leb_spec concurrency 0) as [Hle | Hpos].
  - exists []. cbn [snd map]. now rewrite app_nil_r.
  - rewrite (pool_run_map (traced env) (Z.to_nat concurrency) _
               (post_write (traced env) cfg) sample_of
               (write_key_sample (traced env) cfg)).
    set (trace := fst (pool_run (traced env) (post_write (traced env) cfg)
                         (Z.to_nat concurrency) (List.length tasks) tasks (w1, log))).
    exists (map (fun x => fst (fst x)) trace). cbn [fst snd]. split.
    + rewrite traced_pool_log. cbn [snd]. fold trace. now rewrite map_map.
    + subst trace. apply pool_run_perm; [lia | reflexivity | reflexivity].
Qed.

End BatchRequests.

(** ** Full consistency and the percentage *)



Section Totals.
Variable leader_key_count : nat.


End Totals.



(** ** What a sweep records *)

Section SweepRecords.
Variable env : environment.
Variable cfg : config.

Lemma returned_samples_nonneg (keys : list string)
    (num_writes_per_key concurrency : Z) (w : world env) (latencies : list Q) :
  fst (run_concurrent_writes env cfg keys num_writes_per_key concurrency w)
  = Returned latencies ->
  Forall (fun latency => (0 <= latency)%Q) latencies.
Proof.
  destruct (Z.leb_spec concurrency 0) as [Hle | Hpos].
  - unfold run_concurrent_writes.
    destruct (build_tasks env (range num_writes_per_key) keys w) as [tasks w1].
    replace (Z.leb concurrency 0) with true by (symmetry; now apply Z.leb_le).
    discriminate.
  - rewrite (run_concurrent_writes_trace env cfg _ _ _ w Hpos).
    intros H. injection H as <-.
    apply Forall_map, Forall_forall. intros x Hx. apply filter_In in Hx.
    destruct Hx as [Hx _]. revert x Hx. apply Forall_forall.
    unfold write_trace.
    destruct (build_tasks env (range num_writes_per_key) keys w) as [tasks w1].
    apply pool_run_Forall. intros task w'. apply post_write_elapsed.
Qed.

(** The two ways an iteration can return. *)
Lemma quorum_iteration_returned (quorum : Z) (st st' : sweep_state)
    (w w' : world env) :
  quorum_iteration env cfg quorum st w = (Returned st', w') ->
  st' = st
  \/ exists (latencies : list Q) (w4 : world env) (files : list (string * dict value)),
       Forall (fun latency => (0 <= latency)%Q) latencies
       /\ st' =
          {| all_stats :=
               match latencies with
               | [] => all_stats st
               | _ :: _ =>
                   dict_set Z.eqb quorum (calculate_stats latencies) (all_stats st)
               end;
             all_consistency :=
               dict_set Z.eqb quorum
                 (with_pct
                    (fst (check_consistency env cfg (Some (sweep_keys cfg)) w4))
                    (percentage
                       (fst (check_consistency env cfg (Some (sweep_keys cfg)) w4))))
                 (all_consistency st);
             saved := (saved st ++ files)%list |}.
Proof.
  unfold quorum_iteration.
  destruct (set_quorum env cfg quorum w) as [[|] w1]; cbn [negb].
  - pose proof (returned_samples_nonneg (sweep_keys cfg) (NUM_WRITES_PER_KEY cfg)
                  (CONCURRENT_WRITES cfg) (time_sleep env (1 # 2) w1)) as Hsamples.
    destruct (run_concurrent_writes env cfg (sweep_keys cfg)
                (NUM_WRITES_PER_KEY cfg) (CONCURRENT_WRITES cfg)
                (time_sleep env (1 # 2) w1)) as [[latencies | e] w3];
      [| discriminate].
    specialize (Hsamples latencies eq_refl).
    destruct (check_consistency env cfg (Some (sweep_keys cfg))
                (time_sleep env 1 w3)) as [consistency w5] eqn:Hcheck.
    destruct (save_stores env cfg quorum (sweep_keys cfg) "results" w5)
      as [files w6].
    intros H. injection H as <- _. right.
    exists latencies, (time_sleep env 1 w3), files.
    split; [exact Hsamples |]. now rewrite Hcheck.
  - intros H. injection H as <- _. now left.
Qed.


End SweepRecords.


Section RecordsSound.
Variable env : environment.
Variable cfg : config.




End RecordsSound.



(** ** The summary *)




(** ** Without worker threads *)

Section NoWorkers.
Variable env : environment.
Variable cfg : config.
Hypothesis no_workers : (CONCURRENT_WRITES cfg <= 0)%Z.

Lemma quorum_iteration_raises (quorum : Z) (st : sweep_state) (w : world env) :
  fst (set_quorum env cfg quorum w) = true ->
  fst (quorum_iteration env cfg quorum st w)
  = Raised (ValueError "max_workers must be greater than 0").
Proof.
  unfold quorum_iteration. destruct (set_quorum env cfg quorum w) as [ok w1].
  cbn [fst]. intros ->. cbn [negb]. unfold run_concurrent_writes.
  destruct (build_tasks env (range (NUM_WRITES_PER_KEY cfg)) (sweep_keys cfg)
              (time_sleep env (1 # 2) w1)) as [tasks w2].
  replace (Z.leb (CONCURRENT_WRITES cfg) 0) with true
    by (symmetry; now apply Z.leb_le).
  reflexivity.
Qed.

Lemma sweep_without_workers (quorums : list Z) :
  forall (st : sweep_state) (w : world env),
    (configured_quorums env cfg quorums st w = []
     /\ fst (sweep env cfg quorums st w) = Returned st)
    \/ (exists quorum : Z,
          configured_quorums env cfg quorums st w = [quorum]
          /\ In quorum quorums
          /\ fst (sweep env cfg quorums st w)
             = Raised (ValueError "max_workers must be greater than 0")).
Proof.
  induction quorums as [| quorum rest IH]; intros st w.
  - left. now split.
  - cbn [sweep configured_quorums].
    destruct (fst (set_quorum env cfg quorum w)) eqn:Hset.
    + right. exists quorum.
      pose proof (quorum_iteration_raises quorum st w Hset) as Hraise.
      destruct (quorum_iteration env cfg quorum st w) as [[st1 | e] w1];
        cbn [fst] in Hraise; [discriminate |].
      injection Hraise as ->. repeat split. now left.
    + assert (Hskip : quorum_iteration env cfg quorum st w
                      = (Returned st, snd (set_quorum env cfg quorum w))).
      { unfold quorum_iteration.
        destruct (set_quorum env cfg quorum w) as [ok w1].
        cbn [fst snd] in *. now rewrite Hset. }
      rewrite Hskip. cbn [app].
      destruct (IH st (snd (set_quorum env cfg quorum w)))
        as [[Hnone Hrun] | [q [Hone [Hin Hrun]]]].
      * left. now split.
      * right. exists q. repeat split; [exact Hone | now right | exact Hrun].
Qed.

End NoWorkers.

(** X15: when CONCURRENT_WRITES is not positive, run_analysis either finds
    no quorum value it can set and returns no statistics, or raises the
    ValueError of the thread pool at the first quorum value it sets; it
    never returns any statistics. *)
Theorem run_analysis_without_workers (env : environment) (cfg : config)
    (w : world env) :
  (CONCURRENT_WRITES cfg <= 0)%Z ->
  (configured_quorums env cfg (QUORUM_VALUES cfg) initial_state w = []
   /\ fst (run_analysis env cfg w) = Returned [])
  \/ (exists quorum : Z,
        configured_quorums env cfg (QUORUM_VALUES cfg) initial_state w = [quorum]
        /\ In quorum (QUORUM_VALUES cfg)
        /\ fst (run_analysis env cfg w)
           = Raised (ValueError "max_workers must be greater than 0")).
Proof.
  intros Hc. unfold run_analysis.
  destruct (sweep_without_workers env cfg Hc (QUORUM_VALUES cfg) initial_state w)
    as [[Hnone Hrun] | [q [Hone [Hin Hrun]]]].
  - left. split; [exact Hnone |].
    destruct (sweep env cfg (QUORUM_VALUES cfg) initial_state w) as [[st | e] w'];
      cbn [fst] in *; [| discriminate].
    now injection Hrun as ->.
  - right. exists q. split; [exact Hone |]. split; [exact Hin |].
    destruct (sweep env cfg (QUORUM_VALUES cfg) initial_state w) as [[st | e] w'];
      cbn [fst] in *; [discriminate |].
    now injection Hrun as ->.
Qed.

Lemma run_analysis_without_workers_witness :
  fst (run_analysis sim_env zero_workers_config rejecting_world)
  = Raised (ValueError "max_workers must be greater than 0").
Proof.
  destruct (run_analysis_without_workers sim_env zero_workers_config
              rejecting_world ltac:(discriminate))
    as [[Hnone _] | [q [_ [_ Hrun]]]].
  - vm_compute in Hnone. discriminate.
  - exact Hrun.
Defined.

(** ** The keys of a sweep *)

Lemma string_of_Z_inj (x y : Z) : string_of_Z x = string_of_Z y -> x = y.
Proof.
  unfold string_of_Z. intros H.
  assert (Hnorm : forall z : Z,
            NilZero.int_of_string (NilZero.string_of_int (Z.to_int z))
            = Some (Z.to_int z)).
  { intros z. apply NilZero.isi; destruct z as [| p | p]; simpl;
      try discriminate; intros Hnil; injection Hnil as Hnil;
      now apply DecimalPos.Unsigned.to_uint_nonnil in Hnil. }
  apply (f_equal NilZero.int_of_string) in H.
  rewrite !Hnorm in H. injection H as H. now apply DecimalZ.to_int_inj.
Qed.

(** X16: a sweep uses as many keys as NUM_KEYS says, none when it is not
    positive, and the keys are pairwise distinct; with the default
    configuration they are key_0 to key_9. *)
Theorem sweep_keys_distinct (cfg : config) :
  List.length (sweep_keys cfg) = Z.to_nat (NUM_KEYS cfg)
  /\ NoDup (sweep_keys cfg)
  /\ sweep_keys default_config
     = ["key_0"; "key_1"; "key_2"; "key_3"; "key_4";
        "key_5"; "key_6"; "key_7"; "key_8"; "key_9"].
Proof.
  unfold sweep_keys, range. split; [| split; [| reflexivity]].
  - now rewrite !length_map, length_seq.
  - apply Injective_map_NoDup.
    + intros x y H. apply (append_cancel_l "key_") in H.
      now apply string_of_Z_inj.
    + apply Injective_map_NoDup; [| apply seq_NoDup].
      intros x y. apply Nat2Z.inj.
Qed.

(** ** The data of the consistency plot *)







(** ** When the leader's dump fails *)

(** X18: when the dump of the leader fails, the report has no leader key,
    every follower is reported as matching the leader with nothing matched,
    mismatched or missing, and the percentage is 0: the failure shows as an
    empty but consistent report. *)
Theorem leader_failure_reports_nothing (env : environment) (cfg : config)
    (only : option (list string)) (w : world env) :
  dump_failed (fst (requests_get env (LEADER_URL cfg ++ "/dump") w)) = true ->
  let r := fst (check_consistency env cfg only w) in
  leader_keys r = 0
  /\ Forall (fun e => matches_leader e = true /\ matching_count e = 0
                      /\ mismatched_values e = 0 /\ missing_keys e = 0)
            (followers r)
  /\ all_match r = true
  /\ percentage r = 0%Q.
Proof.
  intros Hfail. cbv zeta.
  assert (Hdata : checked_leader_data env cfg only w = []).
  { unfold checked_leader_data, get_all_data.
    rewrite (get_json_failed env _ w Hfail).
    destruct only as [[| k ks] |]; reflexivity. }
  assert (Hentries : Forall (fun e => matches_leader e = true /\ matching_count e = 0
                               /\ mismatched_values e = 0 /\ missing_keys e = 0)
            (followers (fst (check_consistency env cfg only w)))).
  { rewrite check_consistency_report. cbn [followers]. rewrite Hdata.
    apply check_followers_Forall. intros i follower_data. now repeat split. }
  assert (Hkeys : leader_keys (fst (check_consistency env cfg only w)) = 0).
  { rewrite check_consistency_report. cbn [leader_keys]. now rewrite Hdata. }
  split; [exact Hkeys |]. split; [exact Hentries |]. split.
  - unfold all_match. apply forallb_forall. rewrite Forall_forall in Hentries.
    intros e He. now apply Hentries.
  - unfold percentage, total_keys_checked. now rewrite Hkeys.
Qed.

Lemma leader_failure_reports_nothing_witness :
  all_match (fst (check_consistency sim_env small_config None leader_down_world))
  = true
  /\ leader_keys (fst (check_consistency sim_env small_config None
                         leader_down_world)) = 0.
Proof.
  destruct (leader_failure_reports_nothing sim_env small_config None
              leader_down_world eq_refl) as [Hkeys [_ [Hall _]]].
  split; assumption.
Defined.

(** ** One iteration touches one quorum value *)

(** X19: an iteration that returns leaves the statistics and the report of
    every other quorum value as they were, and keeps the stores saved so
    far, adding its own after them. *)
Theorem iteration_touches_its_quorum_only (env : environment) (cfg : config)
    (quorum : Z) (st : sweep_state) (w : world env) :
  match quorum_iteration env cfg quorum st w with
  | (Returned st', _) =>
      (forall other : Z,
         other <> quorum ->
         dict_get Z.eqb other (all_stats st') = dict_get Z.eqb other (all_stats st)
         /\ dict_get Z.eqb other (all_consistency st')
            = dict_get Z.eqb other (all_consistency st))
      /\ exists files, saved st' = (saved st ++ files)%list
  | (Raised _, _) => True
  end.
Proof.
  destruct (quorum_iteration env cfg quorum st w) as [[st' | e] w'] eqn:Hit;
    [| exact I].
  apply quorum_iteration_returned in Hit.
  destruct Hit as [-> | [latencies [w4 [files [_ ->]]]]].
  - split; [now intros other _ |]. exists []. now rewrite app_nil_r.
  - cbn [all_stats all_consistency saved]. split; [| now exists files].
    intros other Hother. split.
    + destruct latencies as [| x rest]; [reflexivity |].
      apply (dict_get_set_other Z.eqb Z.eqb_eq). congruence.
    + apply (dict_get_set_other Z.eqb Z.eqb_eq). congruence.
Qed.

(** ** The percentage as the code computes it *)



(** ** The statistics as the code computes them *)

Ltac prove_double k :=
  right; left; split;
  [split; [reflexivity | exists k; vm_compute; reflexivity]
  | vm_compute; reflexivity].

Lemma is_double_2 : is_double 2.
Proof. prove_double (2 ^ 52)%Z. Qed.

Lemma is_double_3 : is_double 3.
Proof. prove_double (3 * 2 ^ 51)%Z. Qed.

Lemma is_double_4 : is_double 4.
Proof. prove_double (2 ^ 52)%Z. Qed.




Lemma float_of_fraction_between (q a b : Q) :
  is_double a -> is_double b -> (a <= q)%Q -> (q <= b)%Q ->
  exists m : Q,
    float_of_fraction q = Returned (Finite m) /\ (a <= m)%Q /\ (m <= b)%Q.
Proof.
  intros Ha Hb Haq Hqb. unfold float_of_fraction, int_true_div.
  destruct q as [num den]. cbn [Qnum Qden].
  change (Z.pos den =? 0)%Z with false. cbv iota.
  pose proof (Qmake_Qdiv num den) as Hq.
  destruct (round64_between a (inject_Z num / inject_Z (Z.pos den)) b)
    as (m & Hm & H1 & H2);
    [now rewrite <- Hq | now rewrite <- Hq | exact Ha | exact Hb |].
  rewrite Hm. now exists m.
Qed.

Lemma StronglySorted_nth (l : list Q) :
  StronglySorted Qle l ->
  forall i j : nat,
    i <= j -> j < List.length l -> (nth i l 0 <= nth j l 0)%Q.
Proof.
  induction 1 as [| a rest Hrest IH Ha]; intros i j Hij Hj;
    [simpl in Hj; lia |].
  destruct i as [| i'], j as [| j']; cbn [nth]; simpl in Hj.
  - apply Qle_refl.
  - rewrite Forall_forall in Ha. apply Ha, nth_In. lia.
  - lia.
  - apply IH; lia.
Qed.

Lemma sorted_nth_le (data : list Q) (i j : nat) :
  i <= j -> j < List.length data ->
  (nth i (sorted data) 0 <= nth j (sorted data) 0)%Q.
Proof.
  intros Hij Hj. apply StronglySorted_nth; [| exact Hij |].
  - apply Sorted_StronglySorted; [| apply sorted_ordered].
    intros a b c. apply Qle_trans.
  - now rewrite (Permutation_length (sorted_perm data)).
Qed.

Lemma sorted_nth_double (data : list Q) (k : nat) :
  Forall is_double data -> k < List.length data ->
  is_double (nth k (sorted data) 0%Q) /\ In (nth k (sorted data) 0%Q) data.
Proof.
  intros Hall Hk.
  assert (Hin : In (nth k (sorted data) 0%Q) data).
  { apply (Permutation_in _ (sorted_perm data)).
    apply nth_In. now rewrite (Permutation_length (sorted_perm data)). }
  rewrite Forall_forall in Hall. split; auto.
Qed.

Lemma even_count_halves (n : nat) :
  0 < n -> Nat.modulo n 2 <> 1 ->
  Nat.div n 2 - 1 <= Nat.div n 2 /\ Nat.div n 2 < n /\ Nat.modulo n 2 = 0.
Proof.
  intros Hn Hodd.
  pose proof (Nat.div_mod_eq n 2) as Hdiv.
  pose proof (Nat.mod_upper_bound n 2 ltac:(lia)) as Hmod.
  lia.
Qed.

(** What calculate_stats_double returns for samples that are doubles. *)
Lemma calculate_stats_double_returns (x : Q) (rest : list Q) :
  Forall is_double (x :: rest) ->
  let samples := x :: rest in
  let n := List.length samples in
  let a := nth (Nat.div n 2 - 1) (sorted samples) 0%Q in
  let b := nth (Nat.div n 2) (sorted samples) 0%Q in
  exists (mean_value : Q) (median_value : double),
    calculate_stats_double samples
    = Returned {| mean_double := PyFloat (Finite mean_value);
                  median_double := PyFloat median_value;
                  min_double := PyFloat (Finite (py_min x rest));
                  max_double := PyFloat (Finite (py_max x rest)) |}
    /\ (forall lo hi : Q,
          is_double lo -> is_double hi ->
          (lo <= Qsum samples / Qlen samples)%Q ->
          (Qsum samples / Qlen samples <= hi)%Q ->
          (lo <= mean_value)%Q /\ (mean_value <= hi)%Q)
    /\ (Nat.modulo n 2 = 1 -> median_value = Finite b)
    /\ (Nat.modulo n 2 = 0 ->
        median_value = double_halve (double_add (Finite a) (Finite b))
        /\ (a <= b)%Q /\ In a samples /\ In b samples
        /\ match median_value with
           | Finite v => (a <= v)%Q /\ (v <= b)%Q
           | Infinity _ =>
               (overflow_threshold <= 2 * b)%Q
               \/ (2 * a <= - overflow_threshold)%Q
           | NaN => False
           end).
Proof.
  intros Hall samples n a b.
  destruct (py_min_spec rest x) as [Hmin_in [Hmin_x Hmin_rest]].
  destruct (py_max_spec rest x) as [Hmax_in [Hmax_x Hmax_rest]].
  assert (Hlo : Forall (fun y => (py_min x rest <= y)%Q) samples)
    by now constructor.
  assert (Hhi : Forall (fun y => (y <= py_max x rest)%Q) samples)
    by now constructor.
  assert (Hdmin : is_double (py_min x rest))
    by (rewrite Forall_forall in Hall; now apply Hall).
  assert (Hdmax : is_double (py_max x rest))
    by (rewrite Forall_forall in Hall; now apply Hall).
  assert (Hmean1 : (py_min x rest <= Qsum samples / Qlen samples)%Q)
    by (apply Qle_shift_div_l; [apply Qlen_positive | now apply Qsum_lower]).
  assert (Hmean2 : (Qsum samples / Qlen samples <= py_max x rest)%Q)
    by (apply Qle_shift_div_r; [apply Qlen_positive | now apply Qsum_upper]).
  destruct (float_of_fraction_between _ _ _ Hdmin Hdmax Hmean1 Hmean2)
    as (mean_value & Hmean & _ & _).
  assert (Hn : 0 < n) by (subst n samples; simpl; lia).
  assert (Hlen : List.length (sorted samples) = n)
    by apply (Permutation_length (sorted_perm samples)).
  unfold calculate_stats_double. fold samples.
  assert (Hm : statistics_mean_double samples
               = Returned (Finite mean_value)) by exact Hmean.
  rewrite Hm.
  unfold statistics_median_double. rewrite Hlen.
  replace (Nat.eqb n 0) with false by (symmetry; apply Nat.eqb_neq; lia).
  exists mean_value.
  destruct (Nat.eqb (Nat.modulo n 2) 1) eqn:Hodd.
  - apply Nat.eqb_eq in Hodd. exists (Finite b).
    split; [reflexivity |]. split; [| split; [reflexivity | lia]].
    intros lo hi Hdlo Hdhi H1 H2.
    destruct (float_of_fraction_between _ _ _ Hdlo Hdhi H1 H2)
      as (m & Hm' & Hb1 & Hb2).
    unfold statistics_mean_double in Hm. subst samples.
    rewrite Hm' in Hmean. injection Hmean as <-. now split.
  - apply Nat.eqb_neq in Hodd.
    destruct (even_count_halves n Hn Hodd) as [Hi [Hj Heven]].
    exists (double_halve (double_add (Finite a) (Finite b))).
    split; [reflexivity |]. split; [| split; [lia |]].
    + intros lo hi Hdlo Hdhi H1 H2.
      destruct (float_of_fraction_between _ _ _ Hdlo Hdhi H1 H2)
        as (m & Hm' & Hb1 & Hb2).
      subst samples. rewrite Hm' in Hmean. injection Hmean as <-. now split.
    + intros _.
      destruct (sorted_nth_double samples (Nat.div n 2 - 1) Hall)
        as [Hda Hina]; [fold n; lia |].
      destruct (sorted_nth_double samples (Nat.div n 2) Hall)
        as [Hdb Hinb]; [exact Hj |].
      assert (Hab : (a <= b)%Q) by (apply sorted_nth_le; assumption).
      split; [reflexivity |]. split; [exact Hab |].
      split; [exact Hina |]. split; [exact Hinb |].
      now apply double_average_between.
Qed.




(** X5: for samples that are finite doubles, and at least one of them,
    calculate_stats returns a mean between its minimum and its maximum, and
    a median that lies between them too unless it is infinite, which happens
    only for an even count of samples whose extremes reach half the range of
    the doubles. *)
Theorem calculate_stats_double_between_extremes (x : Q) (rest : list Q) :
  Forall is_double (x :: rest) ->
  exists (mean_value : Q) (median_value : double),
    calculate_stats_double (x :: rest)
    = Returned {| mean_double := PyFloat (Finite mean_value);
                  median_double := PyFloat median_value;
                  min_double := PyFloat (Finite (py_min x rest));
                  max_double := PyFloat (Finite (py_max x rest)) |}
    /\ (py_min x rest <= mean_value)%Q /\ (mean_value <= py_max x rest)%Q
    /\ (py_min x rest <= py_max x rest)%Q
    /\ match median_value with
       | Finite v => (py_min x rest <= v)%Q /\ (v <= py_max x rest)%Q
       | Infinity _ =>
           Nat.modulo (List.length (x :: rest)) 2 = 0
           /\ ((overflow_threshold <= 2 * py_max x rest)%Q
               \/ (2 * py_min x rest <= - overflow_threshold)%Q)
       | NaN => False
       end.
Proof.
  intros Hall.
  destruct (calculate_stats_double_returns x rest Hall)
    as (mean_value & median_value & Hret & Hmean & Hodd & Heven).
  destruct (py_min_spec rest x) as [Hmin_in [Hmin_x Hmin_rest]].
  destruct (py_max_spec rest x) as [Hmax_in [Hmax_x Hmax_rest]].
  set (lo := py_min x rest) in *. set (hi := py_max x rest) in *.
  assert (Hlo : Forall (fun y => (lo <= y)%Q) (x :: rest)) by now constructor.
  assert (Hhi : Forall (fun y => (y <= hi)%Q) (x :: rest)) by now constructor.
  assert (Hdlo : is_double lo)
    by (rewrite Forall_forall in Hall; now apply Hall).
  assert (Hdhi : is_double hi)
    by (rewrite Forall_forall in Hall; now apply Hall).
  exists mean_value, median_value. split; [exact Hret |].
  assert (Hbounds : (lo <= mean_value)%Q /\ (mean_value <= hi)%Q).
  { apply Hmean; [exact Hdlo | exact Hdhi | |].
    - apply Qle_shift_div_l; [apply Qlen_positive | now apply Qsum_lower].
    - apply Qle_shift_div_r; [apply Qlen_positive | now apply Qsum_upper]. }
  split; [apply Hbounds |]. split; [apply Hbounds |].
  split; [eapply Qle_trans; eassumption |].
  set (n := List.length (x :: rest)) in *.
  assert (Hn : 0 < n) by (subst n; simpl; lia).
  assert (Hdiv : Nat.div n 2 < n) by (apply Nat.div_lt; lia).
  destruct (Nat.eq_dec (Nat.modulo n 2) 1) as [H1 | H1].
  - rewrite (Hodd H1).
    now apply (nth_sorted_between (x :: rest) lo hi).
  - destruct (even_count_halves n Hn H1) as [_ [_ H0]].
    destruct (Heven H0) as (_ & Hab & Hina & Hinb & Hbetween).
    rewrite Forall_forall in Hlo, Hhi.
    pose proof (Hlo _ Hina) as Ha1. pose proof (Hhi _ Hinb) as Hb2.
    destruct median_value as [v | negative |].
    + destruct Hbetween as [Hv1 Hv2]. split; eapply Qle_trans; eassumption.
    + split; [exact H0 |]. destruct Hbetween as [Hbig | Hsmall];
        [left | right]; lra.
    + exact Hbetween.
Qed.

Lemma calculate_stats_double_between_extremes_witness :
  exists (mean_value : Q) (median_value : double),
    calculate_stats_double [3; 1; 2]%Q
    = Returned {| mean_double := PyFloat (Finite mean_value);
                  median_double := PyFloat median_value;
                  min_double := PyFloat (Finite 1);
                  max_double := PyFloat (Finite 3) |}
    /\ (1 <= mean_value)%Q /\ (mean_value <= 3)%Q.
Proof.
  assert (Hall : Forall is_double [3; 1; 2]%Q).
  { apply Forall_cons; [exact is_double_3 |].
    apply Forall_cons; [exact is_double_1 |].
    apply Forall_cons; [exact is_double_2 | apply Forall_nil]. }
  destruct (calculate_stats_double_between_extremes 3 [1; 2]%Q Hall)
    as (mean_value & median_value & Hret & H1 & H2 & _).
  exists mean_value, median_value. split; [exact Hret |]. now split.
Defined.

(** ** The percentage of the recorded reports *)



